(** * minhash-lsh: MinHash sketches, signature serialization and LSH banding

    A shallow embedding of [minhash.go] (package [minhashlsh]) together with
    the parts of the Go standard library it calls ([encoding/binary],
    [bytes], [hash/fnv]) and of [github.com/dgryski/go-minhash].

    Conventions.
    - [uint64] and [int64] values are integers in [Z]; every wrap-around of
      the source is written out with [wrap64].
    - A [[]byte] is a [list byte]; a [[]uint64] is a [list Z].
    - A Go function returning [(v, error)] returns a [result]: [(v, nil)] is
      [Ok v], [(zero, err)] is [Err err], and a run that panics is [Panic].
*)

From Stdlib Require Import ZArith QArith Lia Floats Uint63.
From Stdlib.Strings Require Import Byte.
From stdpp Require Import gmap strings list fin_maps.

(* ===================================================================== *)
(** * Part I: the program *)
(* ===================================================================== *)

(** ** Go values, errors and results *)

Inductive error : Type :=
| EOF                          (* io.EOF *)
| ErrUnexpectedEOF             (* io.ErrUnexpectedEOF *)
| errorString (msg : string).  (* errors.New(msg) *)

Inductive result (A : Type) : Type :=
| Ok (a : A)
| Err (e : error)
| Panic (msg : string).

Arguments Ok {A} a.
Arguments Err {A} e.
Arguments Panic {A} msg.

Definition bind {A B : Type} (r : result A) (f : A -> result B) : result B :=
  match r with
  | Ok a => f a
  | Err e => Err e
  | Panic msg => Panic msg
  end.

Notation "x <- r ;; k" := (bind r (fun x => k))
  (at level 100, r at next level, right associativity, only parsing).

Definition is_Err {A : Type} (r : result A) : Prop := exists e, r = Err e.

(** [uint64] arithmetic wraps modulo 2^64. *)
Definition wrap64 (z : Z) : Z := (z mod 2 ^ 64)%Z.

Definition is_uint64 (z : Z) : Prop := (0 <= z < 2 ^ 64)%Z.

Definition MaxUint64 : Z := (2 ^ 64 - 1)%Z.

(** The conversion [byte(x)] of an unsigned integer: the low eight bits. *)
Definition byte_of_Z (z : Z) : byte :=
  default Byte.x00 (Byte.of_N (Z.to_N (z mod 256))).

(** The conversion [uint64(b)] of a byte. *)
Definition Z_of_byte (b : byte) : Z := Z.of_N (Byte.to_N b).

(** ** encoding/binary, big endian *)

Module BigEndian.

(** [PutUint64(b, v)]: the eight bytes written into [b]. *)
Definition PutUint64 (v : Z) : list byte :=
  [ byte_of_Z (Z.shiftr v 56); byte_of_Z (Z.shiftr v 48);
    byte_of_Z (Z.shiftr v 40); byte_of_Z (Z.shiftr v 32);
    byte_of_Z (Z.shiftr v 24); byte_of_Z (Z.shiftr v 16);
    byte_of_Z (Z.shiftr v 8);  byte_of_Z v ].

(** [Uint64(b)]; [None] is the bounds-check panic on a slice shorter than
    eight bytes. *)
Definition Uint64 (b : list byte) : option Z :=
  match b with
  | b0 :: b1 :: b2 :: b3 :: b4 :: b5 :: b6 :: b7 :: _ =>
      Some (Z.lor (Z_of_byte b7)
           (Z.lor (Z.shiftl (Z_of_byte b6) 8)
           (Z.lor (Z.shiftl (Z_of_byte b5) 16)
           (Z.lor (Z.shiftl (Z_of_byte b4) 24)
           (Z.lor (Z.shiftl (Z_of_byte b3) 32)
           (Z.lor (Z.shiftl (Z_of_byte b2) 40)
           (Z.lor (Z.shiftl (Z_of_byte b1) 48)
                  (Z.shiftl (Z_of_byte b0) 56))))))))
  | _ => None
  end.

End BigEndian.

(** ** bytes.Reader and binary.Read *)

(** A [bytes.Reader] is modelled by the bytes it has not yet delivered,
    [r.s[r.i:]]. *)
Definition Reader : Type := list byte.

Definition NewReader (data : list byte) : Reader := data.

(** [io.ReadFull(r, bs)] with [len(bs) = n]: all [n] bytes, or [EOF] when
    nothing is left, or [ErrUnexpectedEOF] after a short read.  The reader
    is advanced by what was read. *)
Definition ReadFull (r : Reader) (n : nat) : result (list byte) * Reader :=
  if decide (n <= length r) then (Ok (take n r), drop n r)
  else match r with
       | [] => (Err EOF, [])
       | _ :: _ => (Err ErrUnexpectedEOF, [])
       end.

(** [binary.Read(r, binary.BigEndian, &v)] for [v] of type [uint64]. *)
Definition binary_Read (r : Reader) : result Z * Reader :=
  match ReadFull r 8 with
  | (Ok bs, r') =>
      match BigEndian.Uint64 bs with
      | Some v => (Ok v, r')
      | None => (Panic "index out of range", r')
      end
  | (Err e, r') => (Err e, r')
  | (Panic msg, r') => (Panic msg, r')
  end.

(** ** hash/fnv: the 64-bit FNV-1a hash

    [sum64a] is a [uint64]; [Write] folds every byte in by xor, then
    multiplies by the prime, wrapping. *)

Module fnv.

Definition offset64 : Z := 14695981039346656037%Z.
Definition prime64 : Z := 1099511628211%Z.

Definition New64a : Z := offset64.

Definition Reset (s : Z) : Z := offset64.

Definition Write (s : Z) (data : list byte) : Z :=
  fold_left
    (fun hash c => wrap64 (Z.lxor hash (Z_of_byte c) * prime64)) data s.

Definition Sum64 (s : Z) : Z := s.

End fnv.

(** ** math/rand: the Source interface

    [rand.New(rand.NewSource(seed))] is a generator whose every output is
    determined by [seed]; [Int63] returns a non-negative 63-bit integer and
    advances the generator. *)

Class Source : Type := {
  rng : Type;
  NewSource : Z -> rng;
  Int63 : rng -> Z * rng
}.

(** A linear congruential [Source] (Knuth's MMIX constants), to run the
    examples on.  The generator behind Go's [rand.NewSource] belongs to the
    standard library, not to this package. *)
Definition lcg_next (s : Z) : Z * Z :=
  let s' := wrap64 (s * 6364136223846793005 + 1442695040888963407) in
  (Z.shiftr s' 1, s').

#[export] Instance lcgSource : Source :=
  {| rng := Z; NewSource := wrap64; Int63 := lcg_next |}.

(** ** github.com/dgryski/go-minhash: MinWise *)

(** The closures [h1], [h2] built by [NewMinhash]: each captures its nonce
    ([b1], [b2]) and its own FNV hasher ([fnv1], [fnv2]), which it resets,
    feeds and leaves modified on every call. *)
Record Hash64 : Type := {
  nonce : list byte;
  hasher : Z
}.

Definition call (h : Hash64) (b : list byte) : Z * Hash64 :=
  let s := fnv.Reset (hasher h) in
  let s := fnv.Write s (nonce h) in
  let s := fnv.Write s b in
  (fnv.Sum64 s, {| nonce := nonce h; hasher := s |}).

Record MinWise : Type := {
  minimums : list Z;
  h1 : Hash64;
  h2 : Hash64
}.

(** [make([]uint64, size)] panics on a negative [size]. *)
Definition NewMinWise (h1 h2 : Hash64) (size : Z) : result MinWise :=
  if (size <? 0)%Z then Panic "makeslice: len out of range"
  else Ok {| minimums := replicate (Z.to_nat size) MaxUint64;
             h1 := h1; h2 := h2 |}.

Definition MinWise_Push (m : MinWise) (b : list byte) : MinWise :=
  let '(v1, h1') := call (h1 m) b in
  let '(v2, h2') := call (h2 m) b in
  {| minimums :=
       imap (fun i v =>
               let hv := wrap64 (v1 + wrap64 (Z.of_nat i * v2)) in
               if (hv <? v)%Z then hv else v)
            (minimums m);
     h1 := h1'; h2 := h2' |}.

(** [for i, v := range m2.minimums]: from index [i], on the remaining
    elements of [m2.minimums], updating [mins = m.minimums]. *)
Fixpoint MinWise_Merge_loop (i : nat) (rest mins : list Z)
  : result (list Z) :=
  match rest with
  | [] => Ok mins
  | v :: rest' =>
      match mins !! i with
      | None => Panic "index out of range"
      | Some x =>
          MinWise_Merge_loop (S i) rest'
            (if (v <? x)%Z then <[i := v]> mins else mins)
      end
  end.

Definition MinWise_Merge (m m2 : MinWise) : result MinWise :=
  mins <- MinWise_Merge_loop 0 (minimums m2) (minimums m) ;;
  Ok {| minimums := mins; h1 := h1 m; h2 := h2 m |}.

Definition MinWise_Signature (m : MinWise) : list Z := minimums m.

(** The conversion [float64(n)] of a non-negative [int]. *)
Definition float64 (n : Z) : float := PrimFloat.of_uint63 (Uint63.of_Z n).

Definition MinWise_Similarity (m m2 : MinWise) : result float :=
  if decide (length (minimums m) <> length (minimums m2))
  then Panic "minhash minimums size mismatch"
  else
    let intersect :=
      length (filter (fun i => minimums m !! i = minimums m2 !! i)
                (seq 0 (length (minimums m)))) in
    Ok (PrimFloat.div (float64 (Z.of_nat intersect))
                      (float64 (Z.of_nat (length (minimums m))))).

(** ** minhash.go: Minhash *)

Record Minhash : Type := {
  mw : MinWise;
  seed : Z
}.

Definition NewMinhash `{Source} (seed : Z) (numHash : Z) : result Minhash :=
  let r := NewSource seed in
  let '(x1, r) := Int63 r in
  let b1 := BigEndian.PutUint64 (wrap64 x1) in
  let '(x2, r) := Int63 r in
  let b2 := BigEndian.PutUint64 (wrap64 x2) in
  let fnv1 := fnv.New64a in
  let fnv2 := fnv.New64a in
  let h1 := {| nonce := b1; hasher := fnv1 |} in
  let h2 := {| nonce := b2; hasher := fnv2 |} in
  mw <- NewMinWise h1 h2 numHash ;;
  Ok {| mw := mw; seed := seed |}.

Definition Push (m : Minhash) (b : list byte) : Minhash :=
  {| mw := MinWise_Push (mw m) b; seed := seed m |}.

Definition Signature (m : Minhash) : list Z := MinWise_Signature (mw m).

(** [Merge] returns nothing; the result is the receiver after the call. *)
Definition Merge (m o : Minhash) : result Minhash :=
  if decide (seed m <> seed o)
  then Panic "Cannot merge Minhash with different seed"
  else
    mw' <- MinWise_Merge (mw m) (mw o) ;;
    Ok {| mw := mw'; seed := seed m |}.

Definition Jaccard (m o : Minhash) : result float :=
  if decide (seed m <> seed o)
  then Err (errorString "Cannot compute Minhashes with different seed")
  else MinWise_Similarity (mw m) (mw o).

(** ** minhash.go: signatures *)

Definition hashValueSize : nat := 8.

(** The body of the [for i, v1 := range sig1] loop of [SigMatches], run from
    index [i] on the remaining elements of [sig1]. *)
Fixpoint SigMatches_loop (i : nat) (rest sig2 : list Z) (count : Z)
  : result Z :=
  match rest with
  | [] => Ok count
  | v1 :: rest' =>
      match sig2 !! i with
      | None => Panic "index out of range"
      | Some v2 =>
          SigMatches_loop (S i) rest' sig2
            (if (v1 =? v2)%Z then (count + 1)%Z else count)
      end
  end.

Definition SigMatches (sig1 sig2 : list Z) : result Z :=
  if decide (length sig1 <> length sig2)
  then Err (errorString
              "CountEquals cannot be used for signatures of different size")
  else SigMatches_loop 0 sig1 sig2 0%Z.

(** [SigToBytes]: every value is appended to the buffer, big endian. *)
Definition SigToBytes (sig : list Z) : list byte :=
  fold_left (fun buf v => buf ++ BigEndian.PutUint64 v) sig [].

(** The [for i := range sig] loop of [BytesToSig] with [n] iterations left,
    at index [i]. *)
Fixpoint BytesToSig_loop (n i : nat) (buf : Reader) (sig : list Z)
  : result (list Z) :=
  match n with
  | O => Ok sig
  | S n' =>
      match binary_Read buf with
      | (Ok v, buf') => BytesToSig_loop n' (S i) buf' (<[i := v]> sig)
      | (Err e, _) => Err e
      | (Panic msg, _) => Panic msg
      end
  end.

Definition BytesToSig (data : list byte) : result (list Z) :=
  let size := (length data / hashValueSize)%nat in
  let sig := replicate size 0%Z in
  let buf := NewReader data in
  BytesToSig_loop size 0 buf sig.

(** ** lsh.go: the parameter optimizer *)

(** Modelled from the spec: lsh.go, which holds the parameter optimizer, is
    not among the sources.  Spec 4.2: two items of similarity [s] collide in
    at least one of [l] bands of [k] rows with probability
    [1 - (1 - s^k)^l]. *)
Definition collision_probability (k l : nat) (s : Q) : Q :=
  (1 - (1 - s ^ Z.of_nat k) ^ Z.of_nat l)%Q.

(** Modelled from the spec: the sample points of the numerical integration
    over [0,1] (spec 4.2: "fine-grained discretization"); the spec leaves
    their number open, so it is a parameter. *)
Definition sample_points (samples : nat) : list Q :=
  map (fun i => Z.of_nat i # Pos.of_nat samples) (seq 0 (S samples)).

(** Modelled from the spec: the false-positive area, the integral of the
    collision probability over [0, t). *)
Definition falsePositiveArea (samples k l : nat) (t : Q) : Q :=
  fold_right Qplus 0%Q
    (map (fun s => if Qlt_le_dec s t
                   then (collision_probability k l s
                         / inject_Z (Z.of_nat samples))%Q
                   else 0%Q)
         (sample_points samples)).

(** Modelled from the spec: the false-negative area, the integral of one
    minus the collision probability over [t, 1]. *)
Definition falseNegativeArea (samples k l : nat) (t : Q) : Q :=
  fold_right Qplus 0%Q
    (map (fun s => if Qlt_le_dec s t
                   then 0%Q
                   else ((1 - collision_probability k l s)
                         / inject_Z (Z.of_nat samples))%Q)
         (sample_points samples)).

(** Modelled from the spec: the candidates, "obtained by scanning [l] from 1
    to [n] and deriving [k = n / l] via integer division", as pairs
    [(k, l)] in scan order. *)
Definition candidates (n : nat) : list (nat * nat) :=
  map (fun l => (n / l, l)) (seq 1 n).

(** Modelled from the spec: the first candidate of least cost ("ties broken
    by first-found order of the scan"): a later candidate replaces the best
    one so far only when strictly cheaper. *)
Fixpoint first_minimum (cost : nat * nat -> Q) (best : nat * nat)
    (rest : list (nat * nat)) : nat * nat :=
  match rest with
  | [] => best
  | c :: rest' =>
      first_minimum cost
        (if Qlt_le_dec (cost c) (cost best) then c else best) rest'
  end.

(** Modelled from the spec: [OptimalParams(n, t, falsePositiveWeight,
    falseNegativeWeight)] returns the candidate [(k, l)] minimizing
    [falsePositiveWeight * fpArea + falseNegativeWeight * fnArea]; finding
    no candidate is fatal (spec 7). *)
Definition OptimalParams (samples n : nat) (t fpWeight fnWeight : Q)
  : result (nat * nat) :=
  let cost := fun c : nat * nat =>
    (fpWeight * falsePositiveArea samples c.1 c.2 t
     + fnWeight * falseNegativeArea samples c.1 c.2 t)%Q in
  match candidates n with
  | [] => Panic "no candidate (k, l)"
  | c :: rest => Ok (first_minimum cost c rest)
  end.

(** ** lsh.go: the band key encoder *)

(** Modelled from the spec: [hashKeyFuncGen] (the spec's [EncodeBand]) is
    called by lsh_test.go but defined in lsh.go, which is not among the
    sources.  Spec 4.3: every value of the band contributes
    [bytesPerValue] bytes, its most significant ones ("truncate to top N
    bytes"): 2 for the narrow keys, 8 for the wide ones. *)
Definition hashKeyFuncGen (bytesPerValue : nat) (band : list Z) : list byte :=
  flat_map (fun v => take bytesPerValue (BigEndian.PutUint64 v)) band.

(** ** lsh.go: the index *)

#[export] Instance byte_eq_dec : EqDecision byte := Byte.byte_eq_dec.

#[export] Instance byte_countable : Countable byte :=
  inj_countable Byte.to_N Byte.of_N Byte.of_to_N.

Inductive phase : Type := Building | Built.

Section Index.
Context {Id : Type} `{Countable Id}.

(** Modelled from the spec: the index (spec 3 and 4.4) owns [k], [l], the
    key width and [l] bucket tables, each a map from a band key to the set
    of the ids stored under it. *)
Record MinhashLSH : Type := {
  k : nat;
  l : nat;
  keySize : nat;
  hashTables : list (gmap (list byte) (gset Id));
  state : phase
}.

(** Modelled from the spec: [New] validates the threshold and the signature
    size, runs the optimizer with the default weights 0.5 / 0.5 and
    allocates [l] empty tables. *)
Definition newIndex (keySize samples signatureSize : nat) (threshold : Q)
  : result MinhashLSH :=
  if decide (signatureSize = 0) then Panic "signature size must be positive"
  else if Qlt_le_dec 0 threshold then
    if Qlt_le_dec 1 threshold then Panic "threshold must be in (0, 1]"
    else
      kl <- OptimalParams samples signatureSize threshold (1 # 2) (1 # 2) ;;
      Ok {| k := kl.1; l := kl.2; keySize := keySize;
            hashTables := replicate kl.2 ∅; state := Building |}
  else Panic "threshold must be in (0, 1]".

(** Modelled from the spec: the two constructors, wide keys and narrow
    keys. *)
Definition NewMinhashLSH := newIndex 8.
Definition NewMinhashLSH16 := newIndex 2.

Definition Params (f : MinhashLSH) : nat * nat := (k f, l f).

(** Modelled from the spec: band [j] covers positions [j*k .. (j+1)*k) of a
    signature; its key is the encoding of the band. *)
Definition bandKey (f : MinhashLSH) (sig : list Z) (j : nat) : list byte :=
  hashKeyFuncGen (keySize f) (take (k f) (drop (j * k f) sig)).

(** Modelled from the spec: [Add(id, signature)] inserts [id] into table
    [j] under the key of band [j], for every [j]; a signature shorter than
    [k*l] is fatal, and so is [Add] after [Index()]. *)
Definition Add (f : MinhashLSH) (id : Id) (sig : list Z) : result MinhashLSH :=
  match state f with
  | Built => Panic "Add after Index"
  | Building =>
      if decide (length sig < k f * l f) then Panic "signature too short"
      else
        Ok {| k := k f; l := l f; keySize := keySize f;
              hashTables :=
                imap (fun j table =>
                        let key := bandKey f sig j in
                        <[key := {[id]} ∪ default ∅ (table !! key)]> table)
                     (hashTables f);
              state := Building |}
  end.

(** Modelled from the spec: [Index()] marks the index built. *)
Definition Index (f : MinhashLSH) : MinhashLSH :=
  {| k := k f; l := l f; keySize := keySize f;
     hashTables := hashTables f; state := Built |}.

(** Modelled from the spec: [Query(signature)] looks the key of band [j] up
    in table [j], for every [j], unions the ids found, and returns the set
    as a list. *)
Definition query (f : MinhashLSH) (sig : list Z) : gset Id :=
  ⋃ (imap (fun j table => default ∅ (table !! bandKey f sig j))
          (hashTables f)).

Definition Query (f : MinhashLSH) (sig : list Z) : result (list Id) :=
  if decide (length sig < k f * l f) then Panic "signature too short"
  else Ok (elements (query f sig)).

End Index.

(** ** Reference meaning of the wire format

    What "big-endian decoding" means, independently of the shifts and
    bitwise ors of [BigEndian.Uint64]: the bytes are the base-256 digits of
    the value, most significant first. *)
Definition be_decode (bs : list byte) : Z :=
  fold_left (fun acc b => (acc * 256 + Z_of_byte b)%Z) bs 0%Z.

(** The first [n] eight-byte groups of [data], each decoded. *)
Fixpoint decode_groups (n : nat) (data : list byte) : list Z :=
  match n with
  | O => []
  | S n' => be_decode (take 8 data) :: decode_groups n' (drop 8 data)
  end.

(** The number of positions at which two signatures agree. *)
Definition equal_positions (sig1 sig2 : list Z) : nat :=
  length (filter (fun i => sig1 !! i = sig2 !! i) (seq 0 (length sig1))).

(** ** Example data *)

(** Nine bytes: the value 1 in eight bytes, then one stray byte. *)
Definition nine_bytes : list byte :=
  [Byte.x00; Byte.x00; Byte.x00; Byte.x00;
   Byte.x00; Byte.x00; Byte.x00; Byte.x01; Byte.xff].

(** The scenario of [Test_MinhashLSH]: three signatures of size 8, the
    second and third identical, added to a narrow-key index for threshold
    0.5. *)
Definition example_sig1 : list Z :=
  [ 5577006791947779410; 8674665223082153551; 6129484611666145821;
    4037200794235010051; 3916589616287113937; 6334824724549167320;
    605394647632969758; 1443635317331776148 ]%Z.

Definition example_sig2 : list Z :=
  [ 1543039099823358511; 2444737614350461942; 8408229319777524213;
    6227544082291281958; 3408337800175640747; 7823500555665497320;
    982429380468229053; 5194470474061092694 ]%Z.

(** The index [NewMinhashLSH16] builds for signature size 8 and threshold
    0.5: four bands of two rows. *)
Definition example_empty : MinhashLSH (Id := string) :=
  {| k := 2; l := 4; keySize := 2; hashTables := replicate 4 ∅;
     state := Building |}.

Definition example_index : result (MinhashLSH (Id := string)) :=
  f <- Add example_empty "sig1" example_sig1 ;;
  f <- Add f "sig2" example_sig2 ;;
  f <- Add f "sig3" example_sig2 ;;
  Ok (Index f).

(** The bounds the optimizer's result must meet for signature size [n]. *)
Definition valid_params (n : nat) (c : nat * nat) : Prop :=
  1 <= c.1 /\ 1 <= c.2 /\ c.1 * c.2 <= n.

(** ** Reference definitions for the further properties *)

(** The number of agreeing pairs when two signatures are read side by
    side. *)
Definition matching_pairs (sig1 sig2 : list Z) : nat :=
  length (filter (fun p : Z * Z => p.1 = p.2) (zip sig1 sig2)).

(** What the closures [h1], [h2] return: the FNV-1a hash of the nonce
    followed by the element. *)
Definition hash_with (nonce b : list byte) : Z :=
  fnv.Sum64 (fnv.Write (fnv.Write fnv.offset64 nonce) b).

(** The [i]-th hash value of an element in a sketch,
    [v1 + uint64(i)*v2]. *)
Definition permuted_hash (m : MinWise) (i : nat) (b : list byte) : Z :=
  wrap64 (hash_with (nonce (h1 m)) b
          + wrap64 (Z.of_nat i * hash_with (nonce (h2 m)) b)).

(** The least of [x] and the [i]-th hash values of the elements [bs]. *)
Definition least_hash (m : MinWise) (i : nat) (bs : list (list byte))
    (x : Z) : Z :=
  fold_left (fun acc b => Z.min (permuted_hash m i b) acc) bs x.

(** [for _, v := range values { mh.Push([]byte(v)) }], the loop by which
    the callers feed a set to a sketch. *)
Definition PushAll (m : Minhash) (bs : list (list byte)) : Minhash :=
  fold_left Push bs m.

(** The position-wise minimum of [mins] and [other], where [other] has a
    value. *)
Definition pointwise_min (mins other : list Z) : list Z :=
  imap (fun j x => match other !! j with
                   | Some v => Z.min v x
                   | None => x
                   end) mins.

(** A sketch with four values and nothing pushed yet, for the examples. *)
Definition example_sketch : Minhash :=
  {| mw := {| minimums := replicate 4 MaxUint64;
              h1 := {| nonce := BigEndian.PutUint64 1; hasher := fnv.New64a |};
              h2 := {| nonce := BigEndian.PutUint64 2; hasher := fnv.New64a |}
           |};
     seed := 42 |}.

Definition elem_one : list byte := String.list_byte_of_string "one".
Definition elem_two : list byte := String.list_byte_of_string "two".

(** The same with eight values. *)
Definition example_wide_sketch : Minhash :=
  {| mw := {| minimums := replicate 8 MaxUint64;
              h1 := {| nonce := BigEndian.PutUint64 1; hasher := fnv.New64a |};
              h2 := {| nonce := BigEndian.PutUint64 2; hasher := fnv.New64a |}
           |};
     seed := 42 |}.

(** ** cmd/minhash-lsh-all-pair: the callers

    Go strings are byte sequences; [[]byte(v)] is the identity on them. *)

(** [a <= b] on Go strings: byte-wise lexicographic order. *)
Fixpoint string_le (a b : list byte) : bool :=
  match a, b with
  | [], _ => true
  | _ :: _, [] => false
  | x :: a', y :: b' =>
      if (Byte.to_N x <? Byte.to_N y)%N then true
      else if (Byte.to_N y <? Byte.to_N x)%N then false
      else string_le a' b'
  end.

Module main.

Record set : Type := {
  ID : list byte;
  values : list (list byte)
}.

Record setSig : Type := {
  sigID : list byte;      (* setSig.ID *)
  size : nat;
  signature : list Z
}.

(** [createSigantures]: the goroutine receives the sets one at a time, in
    the order they were sent, and sends one [setSig] for each before it
    receives the next; so the sequence it sends is computed from the
    sequence it receives.  [minhashSeed] and [minhashSize] are the package
    variables set from the command line.  A panic of [NewMinhash] ends the
    program. *)
Fixpoint createSigantures `{Source} (minhashSeed minhashSize : Z)
    (sets : list set) : result (list setSig) :=
  match sets with
  | [] => Ok []
  | s :: sets' =>
      mh <- NewMinhash minhashSeed minhashSize ;;
      let mh := PushAll mh (values s) in
      out <- createSigantures minhashSeed minhashSize sets' ;;
      Ok ({| sigID := ID s; size := length (values s);
             signature := Signature mh |} :: out)
  end.

Record pair : Type := {
  ID1 : list byte;
  ID2 : list byte
}.

(** [fmt.Sprintf("%s, %s", a, b)]. *)
Definition Sprintf_pair (a b : list byte) : list byte :=
  a ++ String.list_byte_of_string ", " ++ b.

(** The method [String] of [pair]. *)
Definition String (p : pair) : list byte :=
  if string_le (ID1 p) (ID2 p) then Sprintf_pair (ID1 p) (ID2 p)
  else Sprintf_pair (ID2 p) (ID1 p).

End main.

(** Two sets with the same elements, for the examples. *)
Definition example_sets : list main.set :=
  [ {| main.ID := String.list_byte_of_string "a";
       main.values := [elem_one; elem_two; elem_one] |};
    {| main.ID := String.list_byte_of_string "b";
       main.values := [elem_two; elem_one] |} ].

(** ** strings and strconv, as the set-file parser uses them *)

Module gostrings.

(** [strings.HasPrefix(s, prefix)]. *)
Fixpoint HasPrefix (s prefix : list byte) : bool :=
  match prefix, s with
  | [], _ => true
  | _ :: _, [] => false
  | p :: prefix', c :: s' => if Byte.eqb c p then HasPrefix s' prefix' else false
  end.

(** [strings.Index(s, sep)]: the offset of the first occurrence of [sep] in
    [s]; [None] is Go's -1. *)
Fixpoint Index (s sep : list byte) : option nat :=
  if HasPrefix s sep then Some 0
  else match s with
       | [] => None
       | _ :: s' => S <$> Index s' sep
       end.

(** The loop of [strings.Split(s, sep)] for a non-empty [sep]: cut at the
    first occurrence, go on with what follows it.  Go runs it
    [Count(s, sep)] times, that is until [Index] fails; [n] bounds the
    number of rounds. *)
Fixpoint genSplit (n : nat) (s sep : list byte) : list (list byte) :=
  match n with
  | O => [s]
  | S n' =>
      match Index s sep with
      | None => [s]
      | Some m => take m s :: genSplit n' (drop (m + length sep) s) sep
      end
  end.

(** Every round consumes at least one byte, so [length s] rounds are
    enough. *)
Definition Split (s sep : list byte) : list (list byte) :=
  genSplit (length s) s sep.

(** [strings.Join(elems, sep)]. *)
Fixpoint Join (elems : list (list byte)) (sep : list byte) : list byte :=
  match elems with
  | [] => []
  | [x] => x
  | x :: rest => x ++ sep ++ Join rest sep
  end.

End gostrings.

Module strconv.

(** The decimal digit of a byte, if it is one. *)
Definition digit_of (c : byte) : option Z :=
  let n := Z_of_byte c in
  if decide (48 <= n <= 57)%Z then Some (n - 48)%Z else None.

Fixpoint digits_value (acc : Z) (s : list byte) : option Z :=
  match s with
  | [] => Some acc
  | c :: s' =>
      match digit_of c with
      | Some d => digits_value (acc * 10 + d)%Z s'
      | None => None
      end
  end.

(** [strconv.Atoi(s)]: an optional sign, then one decimal digit or more,
    within the range of a 64-bit [int]. *)
Definition Atoi (s : list byte) : result Z :=
  let '(neg, ds) :=
    match s with
    | c :: t => if Byte.eqb c Byte.x2d then (true, t)
                else if Byte.eqb c Byte.x2b then (false, t)
                else (false, s)
    | [] => (false, s)
    end in
  match ds with
  | [] => Err (errorString "strconv.Atoi: invalid syntax")
  | _ :: _ =>
      match digits_value 0 ds with
      | None => Err (errorString "strconv.Atoi: invalid syntax")
      | Some n =>
          let v := if neg then (- n)%Z else n in
          if decide (- 2 ^ 63 <= v <= 2 ^ 63 - 1)%Z then Ok v
          else Err (errorString "strconv.Atoi: value out of range")
      end
  end.

End strconv.

(** ** The set-file parser of the benchmark (the [strings.Split] one) *)

(** The separator, four underscores. *)
Definition underscores : list byte := [Byte.x5f; Byte.x5f; Byte.x5f; Byte.x5f].

Record valueCountPair : Type := {
  value : list byte;
  count : Z
}.

(** [Parse] fills in its receiver and returns an error or nil: [Ok p] is
    the receiver after a nil return. *)
Definition Parse (str : list byte) : result valueCountPair :=
  let items := gostrings.Split str underscores in
  if decide (length items < 2)
  then Err (errorString
              ("No ____ detected in " +:+ String.string_of_list_byte str))
  else
    let value :=
      if decide (2 < length items)
      then Some (gostrings.Join (take (length items - 1) items) underscores)
      else items !! 0 in
    match value, items !! (length items - 1) with
    | Some value, Some text =>
        match strconv.Atoi text with
        | Ok n => Ok {| value := value; count := n |}
        | Err _ => Panic "strconv.Atoi failed"
        | Panic msg => Panic msg
        end
    | _, _ => Panic "index out of range"
    end.

(** ** Reference meaning of the signature of a new sketch *)

(** FNV-1a of a byte sequence, in one pass. *)
Definition fnv1a (data : list byte) : Z :=
  fold_left
    (fun hash c => wrap64 (Z.lxor hash (Z_of_byte c) * fnv.prime64))
    data fnv.offset64.

(** The two nonces of a seed: the first two outputs of the generator
    seeded with it, each as eight bytes, big endian. *)
Definition nonces `{Source} (seed : Z) : list byte * list byte :=
  let '(x1, r) := Int63 (NewSource seed) in
  let '(x2, _) := Int63 r in
  (BigEndian.PutUint64 (wrap64 x1), BigEndian.PutUint64 (wrap64 x2)).

(** What the signature is, as a function of the seed, the number of hash
    functions and the elements alone: value number [i] is the least, over
    the elements [b], of [h1(b) + i * h2(b)] modulo 2^64, where [h1] and
    [h2] are FNV-1a of the first and the second nonce followed by [b]; with
    no element it is the maximal [uint64]. *)
Definition reference_signature `{Source} (seed numHash : Z)
    (elements : list (list byte)) : list Z :=
  let '(b1, b2) := nonces seed in
  map (fun i =>
         fold_left
           (fun least b =>
              Z.min least
                (wrap64 (fnv1a (b1 ++ b) + Z.of_nat i * fnv1a (b2 ++ b))))
           elements MaxUint64)
      (seq 0 (Z.to_nat numHash)).

(** Byte-wise lexicographic order, said outright: [a] is a prefix of [b],
    or at the first position where they differ [a] has the smaller
    byte. *)
Definition bytewise_le (a b : list byte) : Prop :=
  (exists t, b = a ++ t) \/
  (exists p x y ta tb,
     a = p ++ x :: ta /\ b = p ++ y :: tb /\ (Byte.to_N x < Byte.to_N y)%N).

(* ===================================================================== *)
(** * Part II: properties *)
(* ===================================================================== *)

(** ** Bytes *)

Section Words.
Local Open Scope Z_scope.

Lemma Z_of_byte_range (b : byte) : (0 <= Z_of_byte b < 256)%Z.
Proof.
  unfold Z_of_byte. pose proof (Byte.to_N_bounded b). lia.
Qed.

Lemma Z_of_byte_of_Z (z : Z) : Z_of_byte (byte_of_Z z) = (z mod 256)%Z.
Proof.
  unfold Z_of_byte, byte_of_Z.
  assert (Hr : (0 <= z mod 256 < 256)%Z) by (apply Z.mod_pos_bound; lia).
  destruct (Byte.of_N (Z.to_N (z mod 256))) as [b|] eqn:Hb; simpl.
  - apply Byte.to_of_N in Hb. rewrite Hb. lia.
  - apply Byte.of_N_None_iff in Hb. lia.
Qed.

Lemma byte_of_Z_of_byte (b : byte) : byte_of_Z (Z_of_byte b) = b.
Proof.
  unfold byte_of_Z. pose proof (Z_of_byte_range b) as Hr.
  rewrite Z.mod_small by lia. unfold Z_of_byte.
  rewrite N2Z.id, Byte.of_to_N. reflexivity.
Qed.

(** ** Big-endian words *)

(** A bitwise or of two numbers with no bit in common is their sum. *)
Lemma lor_disjoint_add (x q k : Z) :
  (0 <= k)%Z -> (0 <= x < 2 ^ k)%Z ->
  Z.lor x (q * 2 ^ k) = (x + q * 2 ^ k)%Z.
Proof.
  intros Hk Hx.
  assert (Hland : Z.land x (q * 2 ^ k) = 0%Z).
  { apply Z.bits_inj'. intros n Hn.
    rewrite Z.land_spec, Z.bits_0.
    destruct (Z.lt_ge_cases n k) as [Hlt | Hge].
    - rewrite Z.mul_pow2_bits_low by lia. apply andb_false_r.
    - destruct (Z.eq_dec x 0) as [-> | Hx0].
      + rewrite Z.bits_0. reflexivity.
      + rewrite (Z.bits_above_log2 x n); [reflexivity | lia |].
        apply Z.lt_le_trans with k; [| lia].
        apply Z.log2_lt_pow2; lia. }
  rewrite Z.add_nocarry_lxor by exact Hland.
  symmetry. apply Z.lxor_lor. exact Hland.
Qed.

Lemma Uint64_be_decode (b0 b1 b2 b3 b4 b5 b6 b7 : byte) (tl : list byte) :
  BigEndian.Uint64 (b0 :: b1 :: b2 :: b3 :: b4 :: b5 :: b6 :: b7 :: tl)
  = Some (be_decode [b0; b1; b2; b3; b4; b5; b6; b7]).
Proof.
  unfold BigEndian.Uint64, be_decode. simpl fold_left. f_equal.
  pose proof (Z_of_byte_range b0). pose proof (Z_of_byte_range b1).
  pose proof (Z_of_byte_range b2). pose proof (Z_of_byte_range b3).
  pose proof (Z_of_byte_range b4). pose proof (Z_of_byte_range b5).
  pose proof (Z_of_byte_range b6). pose proof (Z_of_byte_range b7).
  generalize dependent (Z_of_byte b0). generalize dependent (Z_of_byte b1).
  generalize dependent (Z_of_byte b2). generalize dependent (Z_of_byte b3).
  generalize dependent (Z_of_byte b4). generalize dependent (Z_of_byte b5).
  generalize dependent (Z_of_byte b6). generalize dependent (Z_of_byte b7).
  intros z7 ? z6 ? z5 ? z4 ? z3 ? z2 ? z1 ? z0 ?.
  rewrite !Z.shiftl_mul_pow2 by lia.
  rewrite (lor_disjoint_add (z1 * 2 ^ 48) z0 56) by lia.
  replace (z1 * 2 ^ 48 + z0 * 2 ^ 56)%Z
    with ((z1 + z0 * 256) * 2 ^ 48)%Z by lia.
  rewrite (lor_disjoint_add (z2 * 2 ^ 40) _ 48) by lia.
  replace (z2 * 2 ^ 40 + (z1 + z0 * 256) * 2 ^ 48)%Z
    with ((z2 + (z1 + z0 * 256) * 256) * 2 ^ 40)%Z by lia.
  rewrite (lor_disjoint_add (z3 * 2 ^ 32) _ 40) by lia.
  replace (z3 * 2 ^ 32 + (z2 + (z1 + z0 * 256) * 256) * 2 ^ 40)%Z
    with ((z3 + (z2 + (z1 + z0 * 256) * 256) * 256) * 2 ^ 32)%Z by lia.
  rewrite (lor_disjoint_add (z4 * 2 ^ 24) _ 32) by lia.
  replace (z4 * 2 ^ 24 + (z3 + (z2 + (z1 + z0 * 256) * 256) * 256) * 2 ^ 32)%Z
    with ((z4 + (z3 + (z2 + (z1 + z0 * 256) * 256) * 256) * 256) * 2 ^ 24)%Z
    by lia.
  rewrite (lor_disjoint_add (z5 * 2 ^ 16) _ 24) by lia.
  replace (z5 * 2 ^ 16
           + (z4 + (z3 + (z2 + (z1 + z0 * 256) * 256) * 256) * 256) * 2 ^ 24)%Z
    with ((z5 + (z4 + (z3 + (z2 + (z1 + z0 * 256) * 256) * 256) * 256) * 256)
          * 2 ^ 16)%Z by lia.
  rewrite (lor_disjoint_add (z6 * 2 ^ 8) _ 16) by lia.
  replace (z6 * 2 ^ 8
           + (z5 + (z4 + (z3 + (z2 + (z1 + z0 * 256) * 256) * 256) * 256)
                   * 256) * 2 ^ 16)%Z
    with ((z6 + (z5 + (z4 + (z3 + (z2 + (z1 + z0 * 256) * 256) * 256) * 256)
                      * 256) * 256) * 2 ^ 8)%Z by lia.
  rewrite (lor_disjoint_add z7 _ 8) by lia.
  lia.
Qed.

Lemma be_decode_PutUint64 (v : Z) :
  is_uint64 v -> be_decode (BigEndian.PutUint64 v) = v.
Proof.
  unfold is_uint64, BigEndian.PutUint64, be_decode. intros Hv.
  simpl fold_left. rewrite !Z_of_byte_of_Z, !Z.shiftr_div_pow2 by lia.
  change (2 ^ 56) with (2 ^ 48 * 256). change (2 ^ 48) with (2 ^ 40 * 256).
  change (2 ^ 40) with (2 ^ 32 * 256). change (2 ^ 32) with (2 ^ 24 * 256).
  change (2 ^ 24) with (2 ^ 16 * 256). change (2 ^ 16) with (2 ^ 8 * 256).
  change (2 ^ 8) with 256.
  rewrite <- !Z.div_div by lia.
  set (v1 := v / 256). set (v2 := v1 / 256). set (v3 := v2 / 256).
  set (v4 := v3 / 256). set (v5 := v4 / 256). set (v6 := v5 / 256).
  set (v7 := v6 / 256).
  assert (Htop : v7 / 256 = 0).
  { subst v7 v6 v5 v4 v3 v2 v1. rewrite !Z.div_div by lia.
    apply Z.div_small. simpl. lia. }
  pose proof (Z.div_mod v 256). pose proof (Z.div_mod v1 256).
  pose proof (Z.div_mod v2 256). pose proof (Z.div_mod v3 256).
  pose proof (Z.div_mod v4 256). pose proof (Z.div_mod v5 256).
  pose proof (Z.div_mod v6 256). pose proof (Z.div_mod v7 256).
  lia.
Qed.

Lemma Uint64_PutUint64 (v : Z) :
  is_uint64 v -> BigEndian.Uint64 (BigEndian.PutUint64 v) = Some v.
Proof.
  intros Hv. rewrite <- (be_decode_PutUint64 v Hv) at 2.
  apply Uint64_be_decode.
Qed.

End Words.

(** ** Reading words from a buffer *)

Lemma length_PutUint64 (v : Z) : length (BigEndian.PutUint64 v) = 8.
Proof. reflexivity. Qed.

(** With eight bytes or more left, [binary.Read] cannot fail: it delivers the
    decoding of the next eight bytes and advances past them. *)
Lemma binary_Read_enough (buf : Reader) :
  8 <= length buf ->
  binary_Read buf = (Ok (be_decode (take 8 buf)), drop 8 buf).
Proof.
  intros Hlen. unfold binary_Read, ReadFull.
  destruct (decide (8 <= length buf)) as [_ | Hno]; [| lia].
  do 8 (destruct buf as [| ? buf]; [simpl in Hlen; lia |]).
  cbn [take]. rewrite Uint64_be_decode. reflexivity.
Qed.

Lemma length_decode_groups (n : nat) (data : list byte) :
  length (decode_groups n data) = n.
Proof.
  revert data. induction n as [| n IH]; intros data; simpl; [reflexivity |].
  rewrite IH. reflexivity.
Qed.

Lemma decode_groups_lookup (n i : nat) (data : list byte) :
  i < n ->
  decode_groups n data !! i = Some (be_decode (take 8 (drop (8 * i) data))).
Proof.
  revert i data. induction n as [| n IH]; intros i data Hi; [lia |].
  destruct i as [| i]; simpl decode_groups.
  - reflexivity.
  - cbn [lookup list_lookup]. rewrite IH by lia. rewrite drop_drop.
    replace (8 * S i) with (8 + 8 * i) by lia. reflexivity.
Qed.

(** The loop of [BytesToSig] overwrites [sig[i..i+n)] with the decoded
    groups and never fails while the buffer holds [8 * n] bytes. *)
Lemma BytesToSig_loop_spec (n i : nat) (buf : Reader) (sig : list Z) :
  8 * n <= length buf ->
  i + n <= length sig ->
  BytesToSig_loop n i buf sig
  = Ok (take i sig ++ decode_groups n buf ++ drop (i + n) sig).
Proof.
  revert i buf sig. induction n as [| n IH]; intros i buf sig Hbuf Hsig.
  - simpl. rewrite Nat.add_0_r, take_drop. reflexivity.
  - simpl BytesToSig_loop. rewrite binary_Read_enough by lia.
    rewrite IH; [| rewrite length_drop; lia | rewrite length_insert; lia].
    f_equal. simpl decode_groups.
    rewrite (take_S_r _ i (be_decode (take 8 buf)))
      by (apply list_lookup_insert_eq; lia).
    rewrite take_insert_ge by lia.
    rewrite drop_insert_lt by lia.
    replace (S i + n) with (i + S n) by lia.
    rewrite <- app_assoc. reflexivity.
Qed.

(** Only the first [8 * n] bytes matter to the first [n] groups. *)
Lemma decode_groups_take (n m : nat) (data : list byte) :
  8 * n <= m -> decode_groups n (take m data) = decode_groups n data.
Proof.
  revert m data. induction n as [| n IH]; intros m data Hm; [reflexivity |].
  cbn [decode_groups]. rewrite take_take, Nat.min_l by lia.
  replace m with (8 + (m - 8)) at 1 by lia.
  rewrite <- take_drop_commute, IH by lia. reflexivity.
Qed.

(** [BytesToSig] is total: whatever the length of [data], it returns the
    decoding of the leading [length data / 8] groups. *)
Lemma BytesToSig_decode_groups (data : list byte) :
  BytesToSig data = Ok (decode_groups (length data / 8) data).
Proof.
  unfold BytesToSig, NewReader, hashValueSize.
  rewrite BytesToSig_loop_spec.
  - rewrite take_0, drop_ge by (rewrite length_replicate; lia).
    rewrite app_nil_r. reflexivity.
  - apply Nat.Div0.mul_div_le.
  - rewrite length_replicate. lia.
Qed.

(** ** Writing words to a buffer *)

Lemma SigToBytes_acc (sig : list Z) (acc : list byte) :
  fold_left (fun buf v => buf ++ BigEndian.PutUint64 v) sig acc
  = acc ++ SigToBytes sig.
Proof.
  unfold SigToBytes. revert acc.
  induction sig as [| v sig IH]; intros acc; simpl fold_left.
  - rewrite app_nil_r. reflexivity.
  - rewrite IH, (IH (BigEndian.PutUint64 v)), <- app_assoc. reflexivity.
Qed.

Lemma SigToBytes_cons (v : Z) (sig : list Z) :
  SigToBytes (v :: sig) = BigEndian.PutUint64 v ++ SigToBytes sig.
Proof.
  unfold SigToBytes at 1. simpl fold_left. apply SigToBytes_acc.
Qed.

Lemma length_SigToBytes (sig : list Z) :
  length (SigToBytes sig) = 8 * length sig.
Proof.
  induction sig as [| v sig IH]; [reflexivity |].
  rewrite SigToBytes_cons, length_app, length_PutUint64, IH. simpl. lia.
Qed.

Lemma decode_groups_SigToBytes (sig : list Z) :
  Forall is_uint64 sig ->
  decode_groups (length sig) (SigToBytes sig) = sig.
Proof.
  induction 1 as [| v sig Hv _ IH]; [reflexivity |].
  rewrite SigToBytes_cons. cbn [length decode_groups].
  rewrite (take_app_length' (BigEndian.PutUint64 v)) by reflexivity.
  rewrite (drop_app_length' (BigEndian.PutUint64 v)) by reflexivity.
  rewrite be_decode_PutUint64 by exact Hv. rewrite IH. reflexivity.
Qed.

(** ** Serialization: the claims *)

(** C1, as stated, fails: [BytesToSig] was claimed to return an error for
    every input whose length is not a multiple of 8, but on these nine
    bytes it returns the one-value signature [1] and no error. *)
Lemma BytesToSig_nine_bytes_accepted :
  length nine_bytes mod 8 <> 0 /\ BytesToSig nine_bytes = Ok [1%Z].
Proof.
  split; [vm_compute; discriminate | vm_compute; reflexivity].
Qed.

(** C1, amended: on a byte slice whose length is not a multiple of 8,
    [BytesToSig] does not fail.  It returns [length data / 8] values (rounded
    down), the [i]-th being the big-endian decoding of bytes
    [8*i .. 8*i+8), and the trailing [length data mod 8] bytes have no
    effect on the result. *)
Theorem BytesToSig_ignores_trailing_bytes (data : list byte) :
  length data mod 8 <> 0 ->
  exists sig,
    BytesToSig data = Ok sig /\
    length sig = length data / 8 /\
    (forall i, i < length sig ->
       sig !! i = Some (be_decode (take 8 (drop (8 * i) data)))) /\
    BytesToSig (take (8 * (length data / 8)) data) = Ok sig.
Proof.
  intros _. exists (decode_groups (length data / 8) data).
  split; [apply BytesToSig_decode_groups |].
  split; [apply length_decode_groups |].
  split.
  - intros i Hi. rewrite length_decode_groups in Hi.
    apply decode_groups_lookup. exact Hi.
  - rewrite BytesToSig_decode_groups. f_equal.
    pose proof (Nat.Div0.mul_div_le (length data) 8) as Hle.
    rewrite length_take, Nat.min_l by exact Hle.
    rewrite Nat.mul_comm, Nat.div_mul by lia.
    apply decode_groups_take. lia.
Qed.

Lemma BytesToSig_ignores_trailing_bytes_witness :
  length nine_bytes mod 8 <> 0 /\
  exists sig,
    BytesToSig nine_bytes = Ok sig /\
    length sig = length nine_bytes / 8 /\
    (forall i, i < length sig ->
       sig !! i = Some (be_decode (take 8 (drop (8 * i) nine_bytes)))) /\
    BytesToSig (take (8 * (length nine_bytes / 8)) nine_bytes) = Ok sig.
Proof.
  assert (Hlen : length nine_bytes mod 8 <> 0) by (vm_compute; discriminate).
  split; [exact Hlen |].
  exact (BytesToSig_ignores_trailing_bytes nine_bytes Hlen).
Defined.

(** C9: on a byte slice whose length is a multiple of 8, the empty slice
    included, [BytesToSig] returns no error and exactly [length data / 8]
    values, which account for every byte of the input, the [i]-th being the
    big-endian decoding of bytes [8*i .. 8*i+8). *)
Theorem BytesToSig_multiple_of_8 (data : list byte) :
  length data mod 8 = 0 ->
  exists sig,
    BytesToSig data = Ok sig /\
    length sig = length data / 8 /\
    8 * length sig = length data /\
    (forall i, i < length sig ->
       sig !! i = Some (be_decode (take 8 (drop (8 * i) data)))).
Proof.
  intros Hmod. exists (decode_groups (length data / 8) data).
  split; [apply BytesToSig_decode_groups |].
  split; [apply length_decode_groups |].
  split.
  - rewrite length_decode_groups.
    pose proof (Nat.div_mod_eq (length data) 8) as Hdiv. lia.
  - intros i Hi. rewrite length_decode_groups in Hi.
    apply decode_groups_lookup. exact Hi.
Qed.

Lemma BytesToSig_multiple_of_8_witness :
  length (SigToBytes [258%Z; MaxUint64]) mod 8 = 0 /\
  exists sig,
    BytesToSig (SigToBytes [258%Z; MaxUint64]) = Ok sig /\
    length sig = length (SigToBytes [258%Z; MaxUint64]) / 8 /\
    8 * length sig = length (SigToBytes [258%Z; MaxUint64]) /\
    (forall i, i < length sig ->
       sig !! i
       = Some (be_decode
                 (take 8 (drop (8 * i) (SigToBytes [258%Z; MaxUint64]))))).
Proof.
  split; [reflexivity |].
  exact (BytesToSig_multiple_of_8 (SigToBytes [258%Z; MaxUint64]) eq_refl).
Defined.

(** The empty slice is accepted and decodes to the empty signature. *)
Example BytesToSig_empty : BytesToSig [] = Ok [].
Proof. reflexivity. Qed.

(** C2: for every non-empty signature [sig] of unsigned 64-bit values,
    [BytesToSig (SigToBytes sig)] succeeds and returns [sig]. *)
Theorem BytesToSig_SigToBytes (sig : list Z) :
  sig <> [] ->
  Forall is_uint64 sig ->
  BytesToSig (SigToBytes sig) = Ok sig.
Proof.
  intros _ Hsig. rewrite BytesToSig_decode_groups, length_SigToBytes.
  rewrite Nat.mul_comm, Nat.div_mul by lia.
  rewrite decode_groups_SigToBytes by exact Hsig. reflexivity.
Qed.

Lemma BytesToSig_SigToBytes_witness :
  [0%Z; 258%Z; MaxUint64] <> [] /\
  Forall is_uint64 [0%Z; 258%Z; MaxUint64] /\
  BytesToSig (SigToBytes [0%Z; 258%Z; MaxUint64])
  = Ok [0%Z; 258%Z; MaxUint64].
Proof.
  assert (Hne : [0%Z; 258%Z; MaxUint64] <> []) by discriminate.
  assert (Hsig : Forall is_uint64 [0%Z; 258%Z; MaxUint64])
    by (repeat constructor; unfold is_uint64, MaxUint64; lia).
  split; [exact Hne |]. split; [exact Hsig |].
  exact (BytesToSig_SigToBytes [0%Z; 258%Z; MaxUint64] Hne Hsig).
Defined.

(** The wire format of the witness, and the round trip of the empty
    signature. *)
Example SigToBytes_258 :
  SigToBytes [258%Z]
  = [Byte.x00; Byte.x00; Byte.x00; Byte.x00;
     Byte.x00; Byte.x00; Byte.x01; Byte.x02].
Proof. reflexivity. Qed.

Example BytesToSig_SigToBytes_empty : BytesToSig (SigToBytes []) = Ok [].
Proof. reflexivity. Qed.

(** ** SigMatches *)

(** The loop, started at the end of the prefix [pre] of [sig1], adds to
    [count] the number of agreeing positions among the remaining ones. *)
Lemma SigMatches_loop_spec (rest pre sig2 : list Z) (count : Z) :
  length (pre ++ rest) = length sig2 ->
  SigMatches_loop (length pre) rest sig2 count
  = Ok (count
        + Z.of_nat
            (length (filter (fun i => (pre ++ rest) !! i = sig2 !! i)
                       (seq (length pre) (length rest)))))%Z.
Proof.
  revert pre count.
  induction rest as [| v1 rest IH]; intros pre count Hlen.
  - simpl. f_equal. lia.
  - cbn [SigMatches_loop].
    destruct (sig2 !! length pre) as [v2 |] eqn:Hv2.
    2: { apply lookup_ge_None in Hv2.
         rewrite length_app in Hlen. simpl in Hlen. lia. }
    assert (Hcons : pre ++ v1 :: rest = (pre ++ [v1]) ++ rest)
      by (rewrite <- app_assoc; reflexivity).
    replace (S (length pre)) with (length (pre ++ [v1]))
      by (rewrite length_app; simpl; lia).
    rewrite IH by (rewrite <- Hcons; exact Hlen).
    rewrite <- Hcons. f_equal.
    cbn [length seq]. rewrite filter_cons.
    rewrite list_lookup_middle by reflexivity. rewrite Hv2.
    replace (length (pre ++ [v1])) with (S (length pre))
      by (rewrite length_app; simpl; lia).
    destruct (Z.eqb_spec v1 v2) as [-> | Hne].
    + rewrite decide_True by reflexivity. cbn [length]. lia.
    + rewrite decide_False by congruence. lia.
Qed.

Lemma SigMatches_equal_length (sig1 sig2 : list Z) :
  length sig1 = length sig2 ->
  SigMatches sig1 sig2 = Ok (Z.of_nat (equal_positions sig1 sig2)).
Proof.
  intros Hlen. unfold SigMatches.
  rewrite decide_False by (intros Hne; apply Hne; exact Hlen).
  apply (SigMatches_loop_spec sig1 [] sig2 0%Z). exact Hlen.
Qed.

Lemma equal_positions_sym (sig1 sig2 : list Z) :
  length sig1 = length sig2 ->
  equal_positions sig1 sig2 = equal_positions sig2 sig1.
Proof.
  intros Hlen. unfold equal_positions. rewrite Hlen. f_equal.
  apply list_filter_iff. intros i. split; intros Heq; symmetry; exact Heq.
Qed.

(** C4: [SigMatches sig1 sig2] returns an error exactly when the lengths
    differ, and otherwise returns the number of positions [i] with
    [sig1[i] = sig2[i]]. *)
Theorem SigMatches_correct (sig1 sig2 : list Z) :
  (is_Err (SigMatches sig1 sig2) <-> length sig1 <> length sig2) /\
  (length sig1 = length sig2 ->
   SigMatches sig1 sig2 = Ok (Z.of_nat (equal_positions sig1 sig2))).
Proof.
  split; [| apply SigMatches_equal_length].
  split.
  - intros [e He] Hlen.
    rewrite SigMatches_equal_length in He by exact Hlen. discriminate.
  - intros Hne. unfold SigMatches. rewrite decide_True by exact Hne.
    eexists. reflexivity.
Qed.

Example SigMatches_two_of_three :
  SigMatches [7%Z; 8%Z; 9%Z] [7%Z; 0%Z; 9%Z] = Ok 2%Z.
Proof. reflexivity. Qed.

Example SigMatches_length_mismatch :
  is_Err (SigMatches [7%Z; 8%Z] [7%Z]).
Proof. eexists. reflexivity. Qed.

(** C10: [SigMatches] is symmetric: on signatures of equal length both
    orders of the arguments succeed and return the same count. *)
Theorem SigMatches_symmetric (sig1 sig2 : list Z) :
  length sig1 = length sig2 ->
  exists count,
    SigMatches sig1 sig2 = Ok count /\ SigMatches sig2 sig1 = Ok count.
Proof.
  intros Hlen. exists (Z.of_nat (equal_positions sig1 sig2)).
  split; [apply SigMatches_equal_length; exact Hlen |].
  rewrite (equal_positions_sym sig1 sig2 Hlen).
  apply SigMatches_equal_length. symmetry. exact Hlen.
Qed.

Lemma SigMatches_symmetric_witness :
  length [7%Z; 8%Z; 9%Z] = length [7%Z; 0%Z; 9%Z] /\
  exists count,
    SigMatches [7%Z; 8%Z; 9%Z] [7%Z; 0%Z; 9%Z] = Ok count /\
    SigMatches [7%Z; 0%Z; 9%Z] [7%Z; 8%Z; 9%Z] = Ok count.
Proof.
  split; [reflexivity |].
  exact (SigMatches_symmetric [7%Z; 8%Z; 9%Z] [7%Z; 0%Z; 9%Z] eq_refl).
Defined.

(** ** Sketches with different seeds *)

(** C3, as stated, fails for [Merge]: the claim has both [Jaccard] and
    [Merge] hand the caller an error value on sketches with different seeds,
    but [Merge] panics.  Here two sketches are built with seeds 1 and 2. *)
Lemma Merge_seeds_1_2_panics :
  exists m o,
    NewMinhash 1 2 = Ok m /\ NewMinhash 2 2 = Ok o /\
    seed m <> seed o /\
    Merge m o = Panic "Cannot merge Minhash with different seed" /\
    ~ is_Err (Merge m o).
Proof.
  eexists. eexists.
  split; [reflexivity |]. split; [reflexivity |].
  split; [simpl; discriminate |].
  split; [reflexivity |].
  intros [e He]. discriminate He.
Qed.

(** C3, amended: on two sketches built with different seeds, [Jaccard]
    returns an error value to the caller, whereas [Merge] panics with the
    message "Cannot merge Minhash with different seed". *)
Theorem different_seeds_Jaccard_errors_Merge_panics (m o : Minhash) :
  seed m <> seed o ->
  Jaccard m o
  = Err (errorString "Cannot compute Minhashes with different seed") /\
  Merge m o = Panic "Cannot merge Minhash with different seed".
Proof.
  intros Hseed. unfold Jaccard, Merge.
  rewrite !decide_True by exact Hseed. split; reflexivity.
Qed.

Lemma different_seeds_witness :
  exists m o,
    NewMinhash 1 2 = Ok m /\ NewMinhash 2 2 = Ok o /\
    seed m <> seed o /\
    Jaccard m o
    = Err (errorString "Cannot compute Minhashes with different seed") /\
    Merge m o = Panic "Cannot merge Minhash with different seed".
Proof.
  eexists. eexists.
  split; [reflexivity |]. split; [reflexivity |].
  assert (Hseed : 1%Z <> 2%Z) by discriminate.
  split; [exact Hseed |].
  apply different_seeds_Jaccard_errors_Merge_panics. exact Hseed.
Defined.

(** ** Creating a sketch *)

Section Reproducible.
Context `{Source}.

(** Creating a sketch succeeds for every non-negative [numHash]; the new
    sketch keeps its seed and holds [numHash] values, all at the maximum. *)
Lemma NewMinhash_Ok (sd numHash : Z) :
  (0 <= numHash)%Z ->
  exists m,
    NewMinhash sd numHash = Ok m /\ seed m = sd /\
    Signature m = replicate (Z.to_nat numHash) MaxUint64.
Proof.
  intros Hn. unfold NewMinhash, NewMinWise.
  destruct (Int63 (NewSource sd)) as [x1 r1].
  destruct (Int63 r1) as [x2 r2].
  destruct (Z.ltb_spec numHash 0) as [Hneg | _]; [lia |].
  eexists. split; [reflexivity |]. split; reflexivity.
Qed.

End Reproducible.

(** ** The parameter optimizer *)

Lemma candidates_valid (n : nat) : Forall (valid_params n) (candidates n).
Proof.
  unfold candidates. apply Forall_map, Forall_forall. intros l Hl.
  apply elem_of_seq in Hl. unfold valid_params. cbn [fst snd].
  assert (Hmul : l * (n / l) <= n) by (apply Nat.Div0.mul_div_le).
  assert (Hdiv : 1 <= n / l) by (apply Nat.div_str_pos; lia).
  lia.
Qed.

(** The minimum search only ever returns one of the candidates it is
    given, whatever the cost function. *)
Lemma first_minimum_valid (n : nat) (cost : nat * nat -> Q)
    (rest : list (nat * nat)) :
  forall best,
    valid_params n best -> Forall (valid_params n) rest ->
    valid_params n (first_minimum cost best rest).
Proof.
  induction rest as [| c rest IH]; intros best Hbest Hrest; [exact Hbest |].
  inversion Hrest as [| ? ? Hc Hrest']; subst.
  cbn [first_minimum]. apply IH; [| exact Hrest'].
  destruct (Qlt_le_dec (cost c) (cost best)); assumption.
Qed.

Lemma candidates_nonempty (n : nat) : 1 <= n -> candidates n <> [].
Proof.
  intros Hn. destruct n as [| n]; [lia |]. discriminate.
Qed.

(** C5: for every signature size [n >= 1] and threshold [t] in (0, 1],
    the parameter optimizer returns a pair [(k, l)] with [k >= 1], [l >= 1]
    and [k * l <= n], whatever the weights and the number of sample points;
    and so does the search run at index construction, whose result [Params]
    reports. *)
Theorem OptimalParams_valid
    (samples n : nat) (t fpWeight fnWeight : Q) :
  1 <= n -> (0 < t)%Q -> (t <= 1)%Q ->
  (exists k l,
     OptimalParams samples n t fpWeight fnWeight = Ok (k, l) /\
     1 <= k /\ 1 <= l /\ k * l <= n) /\
  (forall keySize,
     exists (f : MinhashLSH (Id := string)) k l,
       newIndex keySize samples n t = Ok f /\ Params f = (k, l) /\
       1 <= k /\ 1 <= l /\ k * l <= n).
Proof.
  intros Hn Ht0 Ht1.
  assert (Hopt : forall fpw fnw, exists k l,
             OptimalParams samples n t fpw fnw = Ok (k, l) /\
             1 <= k /\ 1 <= l /\ k * l <= n).
  { intros fpw fnw. unfold OptimalParams.
    pose proof (candidates_valid n) as Hall.
    pose proof (candidates_nonempty n Hn) as Hne.
    destruct (candidates n) as [| c rest]; [congruence |].
    inversion Hall as [| ? ? Hc Hrest]; subst.
    match goal with
    | |- context [first_minimum ?cost c rest] =>
        pose proof (first_minimum_valid n cost rest c Hc Hrest) as Hmin;
        destruct (first_minimum cost c rest) as [k l]
    end.
    exists k, l. split; [reflexivity | exact Hmin]. }
  split; [apply Hopt |].
  intros keySize. unfold newIndex.
  rewrite decide_False by lia.
  destruct (Qlt_le_dec 0 t) as [_ | Hbad];
    [| exfalso; apply (Qlt_not_le _ _ Ht0); exact Hbad].
  destruct (Qlt_le_dec 1 t) as [Hbad | _];
    [exfalso; apply (Qlt_not_le _ _ Hbad); exact Ht1 |].
  destruct (Hopt (1 # 2) (1 # 2)) as (k & l & -> & Hk & Hl & Hkl).
  cbn [bind]. eexists. exists k, l. split; [reflexivity |].
  split; [reflexivity |]. cbn [fst snd]. lia.
Qed.

Lemma OptimalParams_valid_witness :
  (exists k l,
     OptimalParams 10 8 (1 # 2) (1 # 2) (1 # 2) = Ok (k, l) /\
     1 <= k /\ 1 <= l /\ k * l <= 8) /\
  (forall keySize,
     exists (f : MinhashLSH (Id := string)) k l,
       newIndex keySize 10 8 (1 # 2) = Ok f /\ Params f = (k, l) /\
       1 <= k /\ 1 <= l /\ k * l <= 8).
Proof.
  apply (OptimalParams_valid 10 8 (1 # 2) (1 # 2) (1 # 2)).
  - lia.
  - reflexivity.
  - discriminate.
Defined.

Example OptimalParams_8_half :
  OptimalParams 10 8 (1 # 2) (1 # 2) (1 # 2) = Ok (2, 4).
Proof. vm_compute. reflexivity. Qed.

(** A signature size of zero leaves no candidate. *)
Example OptimalParams_no_candidate :
  OptimalParams 10 0 (1 # 2) (1 # 2) (1 # 2) = Panic "no candidate (k, l)".
Proof. reflexivity. Qed.

(** ** The band key encoder *)

Lemma hashKeyFuncGen_length_le (w : nat) (band : list Z) :
  w <= 8 -> length (hashKeyFuncGen w band) = length band * w.
Proof.
  intros Hw. unfold hashKeyFuncGen.
  induction band as [| v band IH]; [reflexivity |].
  cbn [flat_map length]. rewrite length_app, IH, length_take.
  rewrite length_PutUint64. lia.
Qed.

(** C6: for every band and each of the two supported widths [w] (2 bytes
    per value for the narrow keys, 8 for the wide ones), the key of the band
    is exactly [length band * w] bytes long. *)
Theorem hashKeyFuncGen_length (w : nat) (band : list Z) :
  w = 2 \/ w = 8 ->
  length (hashKeyFuncGen w band) = length band * w.
Proof.
  intros Hw. apply hashKeyFuncGen_length_le. destruct Hw; lia.
Qed.

Lemma hashKeyFuncGen_length_witness :
  length (hashKeyFuncGen 2 [258%Z; MaxUint64]) = 2 * 2 /\
  length (hashKeyFuncGen 8 [258%Z; MaxUint64]) = 2 * 8.
Proof.
  split.
  - apply (hashKeyFuncGen_length 2 [258%Z; MaxUint64]). left. reflexivity.
  - apply (hashKeyFuncGen_length 8 [258%Z; MaxUint64]). right. reflexivity.
Defined.

Example hashKeyFuncGen_narrow :
  hashKeyFuncGen 2 [258%Z; MaxUint64]
  = [Byte.x00; Byte.x00; Byte.xff; Byte.xff].
Proof. reflexivity. Qed.

(** ** The index *)

Section IndexProperties.
Context {Id : Type} `{Countable Id}.

(** C8: for every index, built ones included, and every query signature of
    length at least [k * l], [Query] succeeds and the list of ids it returns
    has no duplicate, however many of the band lookups return the same
    id. *)
Theorem Query_NoDup (f : MinhashLSH (Id := Id)) (sig : list Z) :
  k f * l f <= length sig ->
  exists ids, Query f sig = Ok ids /\ NoDup ids.
Proof.
  intros Hlen. unfold Query. rewrite decide_False by lia.
  eexists. split; [reflexivity |]. apply NoDup_elements.
Qed.

(** What [Query] returns: exactly the ids found in some table under the key
    of that table's band. *)
Lemma Query_elem_of (f : MinhashLSH (Id := Id)) (sig : list Z)
    (ids : list Id) (id : Id) :
  Query f sig = Ok ids ->
  id ∈ ids <->
  exists j table bucket,
    hashTables f !! j = Some table /\
    table !! bandKey f sig j = Some bucket /\ id ∈ bucket.
Proof.
  unfold Query. destruct (decide (length sig < k f * l f)); [discriminate |].
  intros Hq. injection Hq as <-.
  rewrite elem_of_elements. unfold query. rewrite elem_of_union_list.
  split.
  - intros (X & HX & Hid). apply list_elem_of_lookup in HX as [j Hj].
    rewrite list_lookup_imap in Hj.
    destruct (hashTables f !! j) as [table |] eqn:Htable; [| discriminate].
    simpl in Hj. injection Hj as <-.
    destruct (table !! bandKey f sig j) as [bucket |] eqn:Hb.
    + exists j, table, bucket. auto.
    + simpl in Hid. set_solver.
  - intros (j & table & bucket & Htable & Hb & Hid).
    exists bucket. split; [| exact Hid].
    apply list_elem_of_lookup. exists j.
    rewrite list_lookup_imap, Htable. simpl. rewrite Hb. reflexivity.
Qed.

End IndexProperties.

Lemma Query_NoDup_witness :
  exists f,
    example_index = Ok f /\
    k f * l f <= length example_sig2 /\
    exists ids, Query f example_sig2 = Ok ids /\ NoDup ids.
Proof.
  eexists. split; [reflexivity |].
  assert (Hkl : 2 * 4 <= length example_sig2) by (simpl; lia).
  split; [exact Hkl |].
  apply Query_NoDup. exact Hkl.
Defined.

Example NewMinhashLSH16_example :
  NewMinhashLSH16 10 8 (1 # 2) = Ok example_empty.
Proof. vm_compute. reflexivity. Qed.

(** The identical signatures share their buckets: querying with the second
    signature finds sig2 and sig3, once each, and not sig1. *)
Example Query_example :
  (f <- example_index ;; Query f example_sig2) = Ok ["sig3"; "sig2"].
Proof. vm_compute. reflexivity. Qed.

(* ===================================================================== *)
(** * Part III: further properties of the code *)
(* ===================================================================== *)

(** ** More on the wire format *)

Section MoreWords.
Local Open Scope Z_scope.

Lemma be_decode_snoc (bs : list byte) (b : byte) :
  be_decode (bs ++ [b]) = be_decode bs * 256 + Z_of_byte b.
Proof. unfold be_decode. rewrite fold_left_app. reflexivity. Qed.

Lemma be_decode_range (bs : list byte) :
  0 <= be_decode bs < 256 ^ Z.of_nat (length bs).
Proof.
  induction bs as [| b bs IH] using rev_ind; [vm_compute; split; congruence |].
  rewrite be_decode_snoc, length_app. cbn [length].
  replace (Z.of_nat (length bs + 1)) with (Z.of_nat (length bs) + 1) by lia.
  rewrite Z.pow_add_r by lia.
  pose proof (Z_of_byte_range b). nia.
Qed.

Lemma be_decode_uint64 (bs : list byte) :
  (length bs <= 8)%nat -> is_uint64 (be_decode bs).
Proof.
  intros Hlen. pose proof (be_decode_range bs) as Hr.
  assert (Hpow : 256 ^ Z.of_nat (length bs) <= 256 ^ 8)
    by (apply Z.pow_le_mono_r; lia).
  unfold is_uint64. change (2 ^ 64) with (256 ^ 8). lia.
Qed.

Lemma byte_of_Z_eq (z : Z) (b : byte) :
  z mod 256 = Z_of_byte b -> byte_of_Z z = b.
Proof.
  intros Hz. unfold byte_of_Z. rewrite Hz. unfold Z_of_byte.
  rewrite N2Z.id, Byte.of_to_N. reflexivity.
Qed.

Lemma be_decode_app (pre suf : list byte) :
  be_decode (pre ++ suf)
  = be_decode pre * 256 ^ Z.of_nat (length suf) + be_decode suf.
Proof.
  induction suf as [| b suf IH] using rev_ind.
  - rewrite app_nil_r. change (be_decode []) with 0. simpl. lia.
  - rewrite app_assoc, !be_decode_snoc, IH, length_app. cbn [length].
    replace (Z.of_nat (length suf + 1)) with (Z.of_nat (length suf) + 1)
      by lia.
    rewrite Z.pow_add_r by lia. lia.
Qed.

(** The byte at distance [length suf] from the end is that base-256 digit
    of the decoded value. *)
Lemma be_decode_digit (pre suf : list byte) (b : byte) :
  (be_decode (pre ++ b :: suf) / 256 ^ Z.of_nat (length suf)) mod 256
  = Z_of_byte b.
Proof.
  change (pre ++ b :: suf) with (pre ++ [b] ++ suf).
  rewrite app_assoc, be_decode_app, be_decode_snoc.
  pose proof (be_decode_range suf) as Hsuf.
  pose proof (Z_of_byte_range b) as Hb.
  rewrite Z.div_add_l by lia.
  rewrite (Z.div_small (be_decode suf)) by lia.
  rewrite Z.add_0_r, Z.add_comm, Z.mod_add by lia.
  apply Z.mod_small. lia.
Qed.

(** Encoding the decoding of eight bytes gives the eight bytes back. *)
Lemma PutUint64_be_decode (bs : list byte) :
  length bs = 8%nat -> BigEndian.PutUint64 (be_decode bs) = bs.
Proof.
  intros Hlen.
  destruct bs as [| b0 [| b1 [| b2 [| b3 [| b4 [| b5 [| b6 [| b7 [| ? ?]]]]]]]]];
    try discriminate Hlen.
  unfold BigEndian.PutUint64.
  rewrite !Z.shiftr_div_pow2 by lia.
  repeat apply (f_equal2 cons); try reflexivity; apply byte_of_Z_eq.
  - apply (be_decode_digit [] [b1; b2; b3; b4; b5; b6; b7] b0).
  - apply (be_decode_digit [b0] [b2; b3; b4; b5; b6; b7] b1).
  - apply (be_decode_digit [b0; b1] [b3; b4; b5; b6; b7] b2).
  - apply (be_decode_digit [b0; b1; b2] [b4; b5; b6; b7] b3).
  - apply (be_decode_digit [b0; b1; b2; b3] [b5; b6; b7] b4).
  - apply (be_decode_digit [b0; b1; b2; b3; b4] [b6; b7] b5).
  - apply (be_decode_digit [b0; b1; b2; b3; b4; b5] [b7] b6).
  - pose proof (be_decode_digit [b0; b1; b2; b3; b4; b5; b6] [] b7) as Hd.
    cbn [length app] in Hd. change (256 ^ Z.of_nat 0) with 1 in Hd.
    rewrite Z.div_1_r in Hd. exact Hd.
Qed.

End MoreWords.

(** ** More on serialization *)

Lemma SigToBytes_decode_groups (n : nat) (data : list byte) :
  8 * n <= length data ->
  SigToBytes (decode_groups n data) = take (8 * n) data.
Proof.
  revert data. induction n as [| n IH]; intros data Hlen; [reflexivity |].
  cbn [decode_groups]. rewrite SigToBytes_cons.
  rewrite PutUint64_be_decode by (rewrite length_take; lia).
  rewrite IH by (rewrite length_drop; lia).
  rewrite take_take_drop. f_equal. lia.
Qed.

Lemma decode_groups_uint64 (n : nat) (data : list byte) :
  Forall is_uint64 (decode_groups n data).
Proof.
  revert data. induction n as [| n IH]; intros data; cbn [decode_groups].
  - constructor.
  - constructor; [| apply IH].
    apply be_decode_uint64. rewrite length_take. lia.
Qed.

(** X1: the layout of the wire format.  [SigToBytes sig] is exactly
    [8 * length sig] bytes long and value number [i] occupies bytes
    [8*i .. 8*i+8), as written by [BigEndian.PutUint64]. *)
Theorem SigToBytes_layout (sig : list Z) :
  length (SigToBytes sig) = 8 * length sig /\
  (forall i v, sig !! i = Some v ->
     take 8 (drop (8 * i) (SigToBytes sig)) = BigEndian.PutUint64 v).
Proof.
  split; [apply length_SigToBytes |].
  induction sig as [| w sig IH]; intros i v Hi; [discriminate Hi |].
  rewrite SigToBytes_cons. destruct i as [| i].
  - injection Hi as ->. rewrite Nat.mul_0_r, drop_0.
    apply take_app_length'. reflexivity.
  - cbn [lookup list_lookup] in Hi.
    replace (8 * S i) with (length (BigEndian.PutUint64 w) + 8 * i)
      by (rewrite length_PutUint64; lia).
    rewrite drop_app_add'; [| reflexivity]. apply IH. exact Hi.
Qed.

(** X2: serializing a concatenation is concatenating the serializations,
    so signatures can be written to one buffer back to back. *)
Theorem SigToBytes_app (sig1 sig2 : list Z) :
  SigToBytes (sig1 ++ sig2) = SigToBytes sig1 ++ SigToBytes sig2.
Proof.
  induction sig1 as [| v sig1 IH]; [reflexivity |].
  rewrite <- app_comm_cons, !SigToBytes_cons, IH, app_assoc. reflexivity.
Qed.

(** X3: the round trip in the other direction.  Whatever bytes are given,
    [BytesToSig] succeeds, and serializing its result gives back the
    leading [8 * (length data / 8)] bytes: all of [data] when its length is
    a multiple of 8. *)
Theorem SigToBytes_BytesToSig (data : list byte) :
  exists sig,
    BytesToSig data = Ok sig /\
    SigToBytes sig = take (8 * (length data / 8)) data /\
    (length data mod 8 = 0 -> SigToBytes sig = data).
Proof.
  exists (decode_groups (length data / 8) data).
  pose proof (Nat.Div0.mul_div_le (length data) 8) as Hle.
  split; [apply BytesToSig_decode_groups |].
  split; [apply SigToBytes_decode_groups; exact Hle |].
  intros Hmod. rewrite SigToBytes_decode_groups by exact Hle.
  apply take_ge. pose proof (Nat.div_mod_eq (length data) 8). lia.
Qed.

(** X4: every value [BytesToSig] returns is an unsigned 64-bit integer. *)
Theorem BytesToSig_uint64 (data : list byte) :
  exists sig, BytesToSig data = Ok sig /\ Forall is_uint64 sig.
Proof.
  exists (decode_groups (length data / 8) data).
  split; [apply BytesToSig_decode_groups | apply decode_groups_uint64].
Qed.

(** X5: [SigToBytes] is injective on signatures of unsigned 64-bit values:
    different signatures never share a serialization. *)
Theorem SigToBytes_inj (sig1 sig2 : list Z) :
  Forall is_uint64 sig1 -> Forall is_uint64 sig2 ->
  SigToBytes sig1 = SigToBytes sig2 -> sig1 = sig2.
Proof.
  intros H1 H2 Heq.
  assert (Hlen : length sig1 = length sig2).
  { pose proof (length_SigToBytes sig1) as L1.
    pose proof (length_SigToBytes sig2) as L2.
    rewrite Heq in L1. lia. }
  rewrite <- (decode_groups_SigToBytes sig1 H1).
  rewrite <- (decode_groups_SigToBytes sig2 H2).
  rewrite Heq, Hlen. reflexivity.
Qed.

Lemma SigToBytes_inj_witness :
  Forall is_uint64 [1%Z; 2%Z] /\
  SigToBytes [1%Z; 2%Z] = SigToBytes ([1%Z] ++ [2%Z]) /\
  [1%Z; 2%Z] = [1%Z] ++ [2%Z].
Proof.
  assert (Hsig : Forall is_uint64 [1%Z; 2%Z])
    by (repeat constructor; unfold is_uint64; lia).
  split; [exact Hsig |]. split; [reflexivity |].
  exact (SigToBytes_inj [1%Z; 2%Z] ([1%Z] ++ [2%Z]) Hsig Hsig eq_refl).
Defined.

(** ** More on SigMatches *)

Lemma matching_pairs_cons (v1 v2 : Z) (sig1 sig2 : list Z) :
  matching_pairs (v1 :: sig1) (v2 :: sig2)
  = (if (v1 =? v2)%Z then 1 else 0) + matching_pairs sig1 sig2.
Proof.
  unfold matching_pairs. cbn [zip_with]. rewrite filter_cons. cbn [fst snd].
  destruct (Z.eqb_spec v1 v2) as [-> | Hne].
  - rewrite decide_True by reflexivity. reflexivity.
  - rewrite decide_False by exact Hne. reflexivity.
Qed.

(** The loop of [SigMatches] counts the agreeing pairs of what is left of
    the two signatures. *)
Lemma SigMatches_loop_zip (rest sig2 : list Z) :
  forall (i : nat) (count : Z),
    i + length rest = length sig2 ->
    SigMatches_loop i rest sig2 count
    = Ok (count + Z.of_nat (matching_pairs rest (drop i sig2)))%Z.
Proof.
  induction rest as [| v1 rest IH]; intros i count Hlen.
  - cbn [SigMatches_loop]. f_equal. unfold matching_pairs. simpl. lia.
  - cbn [SigMatches_loop length] in *.
    destruct (sig2 !! i) as [v2 |] eqn:Hv2.
    2: { apply lookup_ge_None in Hv2. lia. }
    rewrite IH by lia.
    rewrite (drop_S sig2 v2 i Hv2), matching_pairs_cons.
    f_equal. destruct (v1 =? v2)%Z; lia.
Qed.

Lemma SigMatches_matching_pairs (sig1 sig2 : list Z) :
  length sig1 = length sig2 ->
  SigMatches sig1 sig2 = Ok (Z.of_nat (matching_pairs sig1 sig2)).
Proof.
  intros Hlen. unfold SigMatches.
  rewrite decide_False by (intros Hne; apply Hne; exact Hlen).
  rewrite SigMatches_loop_zip by exact Hlen. rewrite drop_0. reflexivity.
Qed.

Lemma matching_pairs_le (sig1 sig2 : list Z) :
  matching_pairs sig1 sig2 <= length sig1.
Proof.
  unfold matching_pairs.
  etransitivity; [apply length_filter |].
  rewrite length_zip_with. lia.
Qed.

Lemma matching_pairs_full (sig1 : list Z) :
  forall sig2,
    length sig1 = length sig2 ->
    matching_pairs sig1 sig2 = length sig1 <-> sig1 = sig2.
Proof.
  induction sig1 as [| v1 sig1 IH]; intros [| v2 sig2] Hlen;
    try discriminate Hlen.
  - split; reflexivity.
  - cbn [length] in Hlen. injection Hlen as Hlen.
    rewrite matching_pairs_cons. cbn [length].
    pose proof (matching_pairs_le sig1 sig2) as Hle.
    destruct (Z.eqb_spec v1 v2) as [-> | Hne].
    + split.
      * intros Hc. f_equal. apply IH; [exact Hlen | lia].
      * intros Heq. injection Heq as Heq. apply IH in Heq; [lia | exact Hlen].
    + split; [lia | intros Heq; injection Heq as Heq _; contradiction].
Qed.

(** X6: a count returned by [SigMatches] lies between 0 and the number of
    values of the signatures. *)
Theorem SigMatches_bounds (sig1 sig2 : list Z) (count : Z) :
  SigMatches sig1 sig2 = Ok count ->
  (0 <= count <= Z.of_nat (length sig1))%Z.
Proof.
  intros Hc. destruct (decide (length sig1 = length sig2)) as [Hlen | Hne].
  - rewrite SigMatches_matching_pairs in Hc by exact Hlen.
    injection Hc as <-. pose proof (matching_pairs_le sig1 sig2). lia.
  - unfold SigMatches in Hc. rewrite decide_True in Hc by exact Hne.
    discriminate Hc.
Qed.

Lemma SigMatches_bounds_witness :
  SigMatches [7%Z; 8%Z; 9%Z] [7%Z; 0%Z; 9%Z] = Ok 2%Z /\
  (0 <= 2 <= Z.of_nat (length [7%Z; 8%Z; 9%Z]))%Z.
Proof.
  split; [reflexivity |].
  exact (SigMatches_bounds [7%Z; 8%Z; 9%Z] [7%Z; 0%Z; 9%Z] 2%Z eq_refl).
Defined.

(** X7: on signatures of equal length, [SigMatches] returns the full count,
    the number of values, exactly when the two signatures are identical. *)
Theorem SigMatches_full_iff_equal (sig1 sig2 : list Z) :
  length sig1 = length sig2 ->
  SigMatches sig1 sig2 = Ok (Z.of_nat (length sig1)) <-> sig1 = sig2.
Proof.
  intros Hlen. rewrite SigMatches_matching_pairs by exact Hlen.
  rewrite <- (matching_pairs_full sig1 sig2 Hlen). split.
  - intros Hc. injection Hc as Hc. lia.
  - intros ->. reflexivity.
Qed.

Lemma SigMatches_full_iff_equal_witness :
  length [7%Z; 8%Z] = length [7%Z; 8%Z] /\
  (SigMatches [7%Z; 8%Z] [7%Z; 8%Z] = Ok (Z.of_nat (length [7%Z; 8%Z]))
   <-> [7%Z; 8%Z] = [7%Z; 8%Z]).
Proof.
  split; [reflexivity |].
  exact (SigMatches_full_iff_equal [7%Z; 8%Z] [7%Z; 8%Z] eq_refl).
Defined.

(** X8: counts add up over concatenation.  When two pairs of signatures
    have matching lengths, the count of the concatenations is the sum of the
    counts of the parts. *)
Theorem SigMatches_app (a b c d : list Z) :
  length a = length c -> length b = length d ->
  exists x y,
    SigMatches a c = Ok x /\ SigMatches b d = Ok y /\
    SigMatches (a ++ b) (c ++ d) = Ok (x + y)%Z.
Proof.
  intros Hac Hbd.
  exists (Z.of_nat (matching_pairs a c)), (Z.of_nat (matching_pairs b d)).
  split; [apply SigMatches_matching_pairs; exact Hac |].
  split; [apply SigMatches_matching_pairs; exact Hbd |].
  rewrite SigMatches_matching_pairs by (rewrite !length_app; lia).
  f_equal. unfold matching_pairs.
  rewrite zip_with_app by exact Hac.
  rewrite filter_app, length_app. lia.
Qed.

Lemma SigMatches_app_witness :
  length [7%Z] = length [7%Z] /\ length [8%Z; 9%Z] = length [0%Z; 9%Z] /\
  exists x y,
    SigMatches [7%Z] [7%Z] = Ok x /\
    SigMatches [8%Z; 9%Z] [0%Z; 9%Z] = Ok y /\
    SigMatches ([7%Z] ++ [8%Z; 9%Z]) ([7%Z] ++ [0%Z; 9%Z]) = Ok (x + y)%Z.
Proof.
  split; [reflexivity |]. split; [reflexivity |].
  exact (SigMatches_app [7%Z] [8%Z; 9%Z] [7%Z] [0%Z; 9%Z] eq_refl eq_refl).
Defined.

(** ** Pushing elements *)

Lemma wrap64_uint64 (z : Z) : is_uint64 (wrap64 z).
Proof. unfold is_uint64, wrap64. apply Z.mod_pos_bound. lia. Qed.

Lemma call_spec (h : Hash64) (b : list byte) :
  call h b
  = (hash_with (nonce h) b,
     {| nonce := nonce h; hasher := hash_with (nonce h) b |}).
Proof. reflexivity. Qed.

Lemma MinWise_Push_minimums (m : MinWise) (b : list byte) :
  minimums (MinWise_Push m b)
  = imap (fun i v => Z.min (permuted_hash m i b) v) (minimums m).
Proof.
  unfold MinWise_Push. rewrite !call_spec. cbn [minimums].
  apply imap_ext. intros i v _. cbn beta zeta.
  fold (permuted_hash m i b).
  destruct (Z.ltb_spec (permuted_hash m i b) v); lia.
Qed.

Lemma permuted_hash_Push (m : MinWise) (b' : list byte) (i : nat)
    (b : list byte) :
  permuted_hash (MinWise_Push m b') i b = permuted_hash m i b.
Proof. reflexivity. Qed.

Lemma least_hash_Push (m : MinWise) (b' : list byte) (i : nat)
    (bs : list (list byte)) (x : Z) :
  least_hash (MinWise_Push m b') i bs x = least_hash m i bs x.
Proof. reflexivity. Qed.

Lemma mw_PushAll (m : Minhash) (bs : list (list byte)) :
  mw (PushAll m bs) = fold_left MinWise_Push bs (mw m) /\
  seed (PushAll m bs) = seed m.
Proof.
  unfold PushAll. revert m.
  induction bs as [| b bs IH]; intros m; [split; reflexivity |].
  cbn [fold_left]. destruct (IH (Push m b)) as [-> ->]. split; reflexivity.
Qed.

(** After pushing [bs], position [i] holds the least of its old value and
    the [i]-th hash values of the pushed elements. *)
Lemma Signature_PushAll_lookup (m : Minhash) (bs : list (list byte))
    (i : nat) :
  Signature (PushAll m bs) !! i
  = least_hash (mw m) i bs <$> Signature m !! i.
Proof.
  unfold Signature, MinWise_Signature.
  rewrite (proj1 (mw_PushAll m bs)). generalize (mw m). clear m.
  induction bs as [| b bs IH]; intros m; cbn [fold_left].
  - unfold least_hash. cbn [fold_left]. destruct (minimums m !! i); reflexivity.
  - rewrite IH, MinWise_Push_minimums, list_lookup_imap.
    destruct (minimums m !! i); reflexivity.
Qed.

Lemma length_Signature_PushAll (m : Minhash) (bs : list (list byte)) :
  length (Signature (PushAll m bs)) = length (Signature m).
Proof.
  unfold Signature, MinWise_Signature.
  rewrite (proj1 (mw_PushAll m bs)). generalize (mw m). clear m.
  induction bs as [| b bs IH]; intros m; cbn [fold_left]; [reflexivity |].
  rewrite IH, MinWise_Push_minimums, length_imap. reflexivity.
Qed.

Lemma least_hash_le_init (m : MinWise) (i : nat) (bs : list (list byte)) :
  forall x, (least_hash m i bs x <= x)%Z.
Proof.
  unfold least_hash.
  induction bs as [| b bs IH]; intros x; cbn [fold_left]; [lia |].
  specialize (IH (Z.min (permuted_hash m i b) x)). lia.
Qed.

Lemma least_hash_le_elem (m : MinWise) (i : nat) (bs : list (list byte))
    (b : list byte) :
  b ∈ bs -> forall x, (least_hash m i bs x <= permuted_hash m i b)%Z.
Proof.
  induction 1 as [b bs | b b' bs _ IH]; intros x.
  - pose proof (least_hash_le_init m i bs (Z.min (permuted_hash m i b) x)).
    unfold least_hash in *. cbn [fold_left]. lia.
  - unfold least_hash in *. cbn [fold_left]. apply IH.
Qed.

Lemma least_hash_attained (m : MinWise) (i : nat) (bs : list (list byte)) :
  forall x,
    least_hash m i bs x = x \/
    exists b, b ∈ bs /\ least_hash m i bs x = permuted_hash m i b.
Proof.
  induction bs as [| b bs IH]; intros x; [left; reflexivity |].
  unfold least_hash in *. cbn [fold_left].
  destruct (IH (Z.min (permuted_hash m i b) x)) as [Heq | (b' & Hb' & Heq)].
  - rewrite Heq.
    destruct (Z.min_spec (permuted_hash m i b) x) as [[_ ->] | [_ ->]].
    + right. exists b. split; [left | reflexivity].
    + left. reflexivity.
  - right. exists b'. split; [right; exact Hb' | exact Heq].
Qed.

Lemma least_hash_subseteq (m : MinWise) (i : nat)
    (bs1 bs2 : list (list byte)) (x : Z) :
  (forall b, b ∈ bs1 -> b ∈ bs2) ->
  (least_hash m i bs2 x <= least_hash m i bs1 x)%Z.
Proof.
  intros Hsub.
  destruct (least_hash_attained m i bs1 x) as [-> | (b & Hb & ->)].
  - apply least_hash_le_init.
  - apply least_hash_le_elem. apply Hsub. exact Hb.
Qed.

Lemma least_hash_min (m : MinWise) (i : nat) (bs : list (list byte)) :
  forall x y,
    least_hash m i bs (Z.min x y) = Z.min (least_hash m i bs x) y.
Proof.
  unfold least_hash.
  induction bs as [| b bs IH]; intros x y; cbn [fold_left]; [reflexivity |].
  rewrite Z.min_assoc. apply IH.
Qed.

Lemma least_hash_app (m : MinWise) (i : nat) (bs1 bs2 : list (list byte))
    (x : Z) :
  least_hash m i (bs1 ++ bs2) x
  = Z.min (least_hash m i bs2 x) (least_hash m i bs1 x).
Proof.
  unfold least_hash at 1. rewrite fold_left_app.
  fold (least_hash m i bs1 x). fold (least_hash m i bs2 (least_hash m i bs1 x)).
  pose proof (least_hash_le_init m i bs1 x) as Hle.
  rewrite <- (Z.min_r x (least_hash m i bs1 x)) at 1 by exact Hle.
  apply least_hash_min.
Qed.

(** X9: pushing elements keeps the seed and the number of values of a
    sketch, and never increases a value: every position of the signature
    afterwards is at most what it was. *)
Theorem PushAll_decreasing (m : Minhash) (bs : list (list byte)) :
  seed (PushAll m bs) = seed m /\
  Forall2 Z.le (Signature (PushAll m bs)) (Signature m).
Proof.
  split; [apply mw_PushAll |].
  apply Forall2_same_length_lookup_2; [apply length_Signature_PushAll |].
  intros i y x Hy Hx. rewrite Signature_PushAll_lookup, Hx in Hy.
  injection Hy as <-. apply least_hash_le_init.
Qed.

(** X10: a signature depends only on the set of the elements pushed, not
    on their order or on repetitions: two sequences of pushes with the same
    elements leave the same signature. *)
Theorem PushAll_same_elements (m : Minhash) (bs1 bs2 : list (list byte)) :
  (forall b, b ∈ bs1 <-> b ∈ bs2) ->
  Signature (PushAll m bs1) = Signature (PushAll m bs2).
Proof.
  intros Hsame. apply list_eq. intros i.
  rewrite !Signature_PushAll_lookup.
  destruct (Signature m !! i) as [x |]; [| reflexivity].
  cbn [fmap option_fmap option_map]. f_equal. apply Z.le_antisymm.
  - apply least_hash_subseteq. intros b. apply Hsame.
  - apply least_hash_subseteq. intros b. apply Hsame.
Qed.

Lemma PushAll_same_elements_witness :
  (forall b, b ∈ [elem_one; elem_two; elem_one] <-> b ∈ [elem_two; elem_one])
  /\ Signature (PushAll example_sketch [elem_one; elem_two; elem_one])
     = Signature (PushAll example_sketch [elem_two; elem_one]).
Proof.
  assert (Hsame : forall b, b ∈ [elem_one; elem_two; elem_one]
                            <-> b ∈ [elem_two; elem_one]).
  { intros b. rewrite !list_elem_of_In. simpl. tauto. }
  split; [exact Hsame |].
  exact (PushAll_same_elements example_sketch _ _ Hsame).
Defined.

Section FreshSketch.
Context `{Source}.

Lemma NewMinhash_negative (sd numHash : Z) :
  (numHash < 0)%Z -> exists msg, NewMinhash sd numHash = Panic msg.
Proof.
  intros Hneg. unfold NewMinhash, NewMinWise.
  destruct (Int63 (NewSource sd)) as [x1 r1].
  destruct (Int63 r1) as [x2 r2].
  destruct (Z.ltb_spec numHash 0) as [_ | Hge]; [| lia].
  eexists. reflexivity.
Qed.

(** X12: the signature of a sketch made by [NewMinhash], after any pushes,
    has exactly [numHash] values, all unsigned 64-bit integers, and so
    survives the trip through [SigToBytes] and [BytesToSig] unchanged. *)
Theorem Signature_serializable (sd numHash : Z) (m : Minhash)
    (bs : list (list byte)) :
  NewMinhash sd numHash = Ok m ->
  length (Signature (PushAll m bs)) = Z.to_nat numHash /\
  Forall is_uint64 (Signature (PushAll m bs)) /\
  BytesToSig (SigToBytes (Signature (PushAll m bs)))
  = Ok (Signature (PushAll m bs)).
Proof.
  intros Hnew.
  assert (Hn : (0 <= numHash)%Z).
  { destruct (Z.lt_ge_cases numHash 0) as [Hneg | Hge]; [| exact Hge].
    destruct (NewMinhash_negative sd numHash Hneg) as [msg Hp].
    congruence. }
  destruct (NewMinhash_Ok sd numHash Hn) as (m' & Hm' & _ & Hsig).
  rewrite Hnew in Hm'. injection Hm' as <-.
  assert (Hrange : Forall is_uint64 (Signature (PushAll m bs))).
  { apply Forall_lookup. intros i y Hy.
    rewrite Signature_PushAll_lookup in Hy.
    destruct (Signature m !! i) as [x |] eqn:Hx; [| discriminate Hy].
    injection Hy as <-.
    assert (Hx' : x = MaxUint64).
    { rewrite Hsig in Hx. apply lookup_replicate in Hx. tauto. }
    destruct (least_hash_attained (mw m) i bs x) as [-> | (b & _ & ->)].
    - subst x. unfold is_uint64, MaxUint64. lia.
    - apply wrap64_uint64. }
  split.
  - rewrite length_Signature_PushAll, Hsig, length_replicate. reflexivity.
  - split; [exact Hrange |].
    rewrite BytesToSig_decode_groups, length_SigToBytes.
    rewrite Nat.mul_comm, Nat.div_mul by lia.
    rewrite decode_groups_SigToBytes by exact Hrange. reflexivity.
Qed.

End FreshSketch.

Lemma Signature_serializable_witness :
  exists m,
    NewMinhash 42 4 = Ok m /\
    length (Signature (PushAll m [elem_one; elem_two])) = Z.to_nat 4 /\
    Forall is_uint64 (Signature (PushAll m [elem_one; elem_two])) /\
    BytesToSig (SigToBytes (Signature (PushAll m [elem_one; elem_two])))
    = Ok (Signature (PushAll m [elem_one; elem_two])).
Proof.
  eexists. split; [reflexivity |].
  apply (Signature_serializable 42 4 _ [elem_one; elem_two]). reflexivity.
Defined.

(** ** Reproducibility *)

Lemma hash_with_fnv1a (nonce b : list byte) :
  hash_with nonce b = fnv1a (nonce ++ b).
Proof.
  unfold hash_with, fnv1a, fnv.Sum64, fnv.Write.
  rewrite fold_left_app. reflexivity.
Qed.

Lemma wrap64_add_wrap64 (x y : Z) : wrap64 (x + wrap64 y) = wrap64 (x + y).
Proof. unfold wrap64. apply Z.add_mod_idemp_r. lia. Qed.

Lemma fold_left_pointwise {A B : Type} (f g : A -> B -> A) (l : list B) :
  (forall a b, f a b = g a b) ->
  forall a, fold_left f l a = fold_left g l a.
Proof.
  intros Hfg. induction l as [| b l IH]; intros a; [reflexivity |].
  cbn [fold_left]. rewrite Hfg. apply IH.
Qed.

Section Reproducibility.
Context `{Source}.

(** The signature of a sketch made by [NewMinhash], after any pushes, is
    the reference signature of the seed, the number of hash functions and
    the elements pushed: nothing else enters it, neither the state the
    hashers were left in nor the sketch created. *)
Lemma Signature_reference (sd numHash : Z) (m : Minhash)
    (pushes : list (list byte)) :
  NewMinhash sd numHash = Ok m ->
  Signature (PushAll m pushes) = reference_signature sd numHash pushes.
Proof.
  intros Hnew. unfold reference_signature, nonces.
  unfold NewMinhash, NewMinWise in Hnew.
  destruct (Int63 (NewSource sd)) as [x1 r1].
  destruct (Int63 r1) as [x2 r2].
  destruct (Z.ltb_spec numHash 0) as [Hneg | Hge]; [discriminate Hnew |].
  cbn [bind] in Hnew. injection Hnew as <-.
  apply list_eq. intros i.
  rewrite Signature_PushAll_lookup, list_lookup_fmap.
  cbn [Signature MinWise_Signature mw minimums].
  destruct (decide (i < Z.to_nat numHash)) as [Hi | Hi].
  - rewrite lookup_replicate_2 by exact Hi.
    rewrite lookup_seq_lt by exact Hi.
    cbn [fmap option_fmap option_map Nat.add]. f_equal.
    unfold least_hash. apply fold_left_pointwise. intros x b.
    unfold permuted_hash. cbn [h1 h2 nonce].
    rewrite !hash_with_fnv1a, wrap64_add_wrap64. apply Z.min_comm.
  - rewrite (proj1 (lookup_replicate_None _ _ _)) by lia.
    rewrite lookup_seq_ge by lia. reflexivity.
Qed.

(** C7: [NewMinhash] is reproducible.  Two sketches created with the same
    [(seed, numHash)] and fed the same sequence of pushes give identical
    results from [Signature].  More is true: the sequences need only have
    the same elements, in any order and with any repetitions; and the
    result is the reference signature, a function of the seed, of
    [numHash] and of the elements alone. *)
Theorem NewMinhash_reproducible (sd numHash : Z) (m1 m2 : Minhash)
    (pushes : list (list byte)) :
  NewMinhash sd numHash = Ok m1 ->
  NewMinhash sd numHash = Ok m2 ->
  Signature (PushAll m1 pushes) = Signature (PushAll m2 pushes) /\
  (forall pushes',
     (forall b, b ∈ pushes <-> b ∈ pushes') ->
     Signature (PushAll m1 pushes) = Signature (PushAll m2 pushes')) /\
  Signature (PushAll m1 pushes) = reference_signature sd numHash pushes.
Proof.
  intros Hm1 Hm2.
  pose proof (Signature_reference sd numHash m1 pushes Hm1) as Href1.
  split; [| split; [| exact Href1]].
  - rewrite Href1. symmetry. apply Signature_reference. exact Hm2.
  - intros pushes' Hsame.
    rewrite Href1, <- (Signature_reference sd numHash m2 pushes Hm2).
    apply list_eq. intros i. rewrite !Signature_PushAll_lookup.
    destruct (Signature m2 !! i) as [x |]; [| reflexivity].
    cbn [fmap option_fmap option_map]. f_equal.
    apply Z.le_antisymm; apply least_hash_subseteq; intros b; apply Hsame.
Qed.

End Reproducibility.

Lemma NewMinhash_reproducible_witness :
  exists m1 m2,
    NewMinhash 42 4 = Ok m1 /\ NewMinhash 42 4 = Ok m2 /\
    Signature (PushAll m1 [elem_one; elem_two; elem_one])
    = Signature (PushAll m2 [elem_one; elem_two; elem_one]) /\
    (forall pushes',
       (forall b, b ∈ [elem_one; elem_two; elem_one] <-> b ∈ pushes') ->
       Signature (PushAll m1 [elem_one; elem_two; elem_one])
       = Signature (PushAll m2 pushes')) /\
    Signature (PushAll m1 [elem_one; elem_two; elem_one])
    = reference_signature 42 4 [elem_one; elem_two; elem_one].
Proof.
  eexists. eexists. split; [reflexivity |]. split; [reflexivity |].
  apply (NewMinhash_reproducible 42 4); reflexivity.
Defined.

(** The signature of the witness, computed twice: by the sketch, pushing in
    one order, and by the reference, from the elements in another. *)
Example reference_signature_example :
  (m <- NewMinhash 42 2 ;; Ok (Signature (PushAll m [elem_one; elem_two])))
  = Ok (reference_signature 42 2 [elem_two; elem_one; elem_two]).
Proof. vm_compute. reflexivity. Qed.

(** ** Merging sketches *)

Lemma MinWise_Merge_loop_spec (rest : list Z) :
  forall (i : nat) (mins : list Z),
    i + length rest <= length mins ->
    MinWise_Merge_loop i rest mins
    = Ok (imap (fun j x =>
                  if decide (i <= j)
                  then match rest !! (j - i) with
                       | Some v => Z.min v x
                       | None => x
                       end
                  else x) mins).
Proof.
  induction rest as [| v rest IH]; intros i mins Hlen.
  - cbn [MinWise_Merge_loop]. f_equal. apply list_eq. intros j.
    rewrite list_lookup_imap. destruct (mins !! j); [| reflexivity].
    simpl. destruct (decide (i <= j)); reflexivity.
  - cbn [MinWise_Merge_loop length] in *.
    destruct (mins !! i) as [x |] eqn:Hx.
    2: { apply lookup_ge_None in Hx. lia. }
    assert (Hins : (if (v <? x)%Z then <[i := v]> mins else mins)
                   = <[i := Z.min v x]> mins).
    { destruct (Z.ltb_spec v x).
      - rewrite Z.min_l by lia. reflexivity.
      - rewrite Z.min_r by lia. symmetry. apply list_insert_id. exact Hx. }
    rewrite Hins, IH by (rewrite length_insert; lia).
    f_equal. apply list_eq. intros j. rewrite !list_lookup_imap.
    destruct (decide (j = i)) as [-> | Hne].
    + rewrite list_lookup_insert_eq by (apply lookup_lt_Some in Hx; lia).
      rewrite Hx. simpl.
      rewrite decide_False by lia. rewrite decide_True by lia.
      rewrite Nat.sub_diag. reflexivity.
    + rewrite list_lookup_insert_ne by congruence.
      destruct (mins !! j) as [y |]; [| reflexivity]. simpl. f_equal.
      destruct (decide (S i <= j)) as [Hle | Hgt].
      * rewrite decide_True by lia.
        replace (j - i) with (S (j - S i)) by lia. reflexivity.
      * rewrite decide_False by lia. reflexivity.
Qed.

Lemma MinWise_Merge_loop_panics (rest : list Z) :
  forall (i : nat) (mins : list Z),
    i <= length mins -> length mins < i + length rest ->
    MinWise_Merge_loop i rest mins = Panic "index out of range".
Proof.
  induction rest as [| v rest IH]; intros i mins Hi Hlen.
  - simpl in Hlen. lia.
  - cbn [MinWise_Merge_loop length] in *.
    destruct (mins !! i) as [x |] eqn:Hx; [| reflexivity].
    apply lookup_lt_Some in Hx.
    apply IH; destruct (v <? x)%Z; rewrite ?length_insert; lia.
Qed.

Lemma MinWise_Merge_pointwise (m m2 : MinWise) :
  length (minimums m2) <= length (minimums m) ->
  MinWise_Merge m m2
  = Ok {| minimums := pointwise_min (minimums m) (minimums m2);
          h1 := h1 m; h2 := h2 m |}.
Proof.
  intros Hlen. unfold MinWise_Merge.
  rewrite MinWise_Merge_loop_spec by (simpl; lia). cbn [bind].
  do 2 f_equal. unfold pointwise_min. apply imap_ext. intros j x _.
  cbn beta. rewrite decide_True by lia. rewrite Nat.sub_0_r. reflexivity.
Qed.

Lemma Merge_same_seed (m o : Minhash) :
  seed m = seed o ->
  length (Signature o) <= length (Signature m) ->
  exists m',
    Merge m o = Ok m' /\ seed m' = seed m /\
    Signature m' = pointwise_min (Signature m) (Signature o).
Proof.
  intros Hseed Hlen. unfold Merge.
  rewrite decide_False by (intros Hne; apply Hne; exact Hseed).
  rewrite MinWise_Merge_pointwise by exact Hlen. cbn [bind].
  eexists. split; [reflexivity |]. split; reflexivity.
Qed.

Lemma pointwise_min_lookup (mins other : list Z) (i : nat) :
  pointwise_min mins other !! i
  = match mins !! i, other !! i with
    | Some x, Some v => Some (Z.min v x)
    | Some x, None => Some x
    | None, _ => None
    end.
Proof.
  unfold pointwise_min. rewrite list_lookup_imap.
  destruct (mins !! i); [| reflexivity]. simpl.
  destruct (other !! i); reflexivity.
Qed.

(** X13: merging with equal seeds.  When the other sketch has at most as
    many values as the receiver, [Merge] succeeds, keeps the seed and the
    number of values, and leaves in the receiver the position-wise minimum
    of the two signatures; positions beyond the other sketch's are
    unchanged. *)
Theorem Merge_pointwise_min (m o : Minhash) :
  seed m = seed o ->
  length (Signature o) <= length (Signature m) ->
  exists m',
    Merge m o = Ok m' /\ seed m' = seed m /\
    length (Signature m') = length (Signature m) /\
    forall i,
      Signature m' !! i
      = match Signature m !! i, Signature o !! i with
        | Some x, Some v => Some (Z.min v x)
        | Some x, None => Some x
        | None, _ => None
        end.
Proof.
  intros Hseed Hlen.
  destruct (Merge_same_seed m o Hseed Hlen) as (m' & Hm' & Hs & Hsig).
  exists m'. split; [exact Hm' |]. split; [exact Hs |]. rewrite Hsig.
  split; [apply length_imap | intros i; apply pointwise_min_lookup].
Qed.

Lemma Merge_pointwise_min_witness :
  seed (PushAll example_wide_sketch [elem_one])
  = seed (PushAll example_sketch [elem_two]) /\
  length (Signature (PushAll example_sketch [elem_two]))
  <= length (Signature (PushAll example_wide_sketch [elem_one])) /\
  exists m',
    Merge (PushAll example_wide_sketch [elem_one])
          (PushAll example_sketch [elem_two]) = Ok m' /\
    seed m' = seed (PushAll example_wide_sketch [elem_one]) /\
    length (Signature m')
    = length (Signature (PushAll example_wide_sketch [elem_one])) /\
    forall i,
      Signature m' !! i
      = match Signature (PushAll example_wide_sketch [elem_one]) !! i,
              Signature (PushAll example_sketch [elem_two]) !! i with
        | Some x, Some v => Some (Z.min v x)
        | Some x, None => Some x
        | None, _ => None
        end.
Proof.
  assert (Hlen : length (Signature (PushAll example_sketch [elem_two]))
                 <= length (Signature (PushAll example_wide_sketch
                                         [elem_one])))
    by (rewrite !length_Signature_PushAll; simpl; lia).
  split; [reflexivity |]. split; [exact Hlen |].
  exact (Merge_pointwise_min (PushAll example_wide_sketch [elem_one])
           (PushAll example_sketch [elem_two]) eq_refl Hlen).
Defined.

(** X14: when the other sketch has more values than the receiver, [Merge]
    with equal seeds panics: the loop indexes the receiver out of range. *)
Theorem Merge_longer_panics (m o : Minhash) :
  seed m = seed o ->
  length (Signature m) < length (Signature o) ->
  exists msg, Merge m o = Panic msg.
Proof.
  intros Hseed Hlen. unfold Merge, MinWise_Merge.
  rewrite decide_False by (intros Hne; apply Hne; exact Hseed).
  rewrite MinWise_Merge_loop_panics; [| lia | exact Hlen].
  eexists. reflexivity.
Qed.

Lemma Merge_longer_panics_witness :
  seed (PushAll example_sketch [elem_two])
  = seed (PushAll example_wide_sketch [elem_one]) /\
  length (Signature (PushAll example_sketch [elem_two]))
  < length (Signature (PushAll example_wide_sketch [elem_one])) /\
  exists msg,
    Merge (PushAll example_sketch [elem_two])
          (PushAll example_wide_sketch [elem_one]) = Panic msg.
Proof.
  assert (Hlen : length (Signature (PushAll example_sketch [elem_two]))
                 < length (Signature (PushAll example_wide_sketch
                                        [elem_one])))
    by (rewrite !length_Signature_PushAll; simpl; lia).
  split; [reflexivity |]. split; [exact Hlen |].
  exact (Merge_longer_panics (PushAll example_sketch [elem_two])
           (PushAll example_wide_sketch [elem_one]) eq_refl Hlen).
Defined.

(** X15: merging is taking the union.  Two sketches grown from the same
    sketch by pushing the elements [A] and the elements [B] merge, without
    error, into a sketch with the signature that pushing all of [A] and [B]
    gives. *)
Theorem Merge_union (m : Minhash) (A B : list (list byte)) :
  exists m',
    Merge (PushAll m A) (PushAll m B) = Ok m' /\
    seed m' = seed m /\
    Signature m' = Signature (PushAll m (A ++ B)).
Proof.
  assert (Hseed : seed (PushAll m A) = seed (PushAll m B))
    by (rewrite !(proj2 (mw_PushAll m _)); reflexivity).
  assert (Hlen : length (Signature (PushAll m B))
                 <= length (Signature (PushAll m A)))
    by (rewrite !length_Signature_PushAll; lia).
  destruct (Merge_same_seed _ _ Hseed Hlen) as (m' & Hm' & Hs & Hsig).
  exists m'. split; [exact Hm' |].
  split; [rewrite Hs; apply mw_PushAll |].
  rewrite Hsig. apply list_eq. intros i.
  rewrite pointwise_min_lookup, !Signature_PushAll_lookup.
  destruct (Signature m !! i) as [x |]; [| reflexivity].
  cbn [fmap option_fmap option_map]. rewrite least_hash_app. reflexivity.
Qed.

(** X16: on sketches with equal seeds and equally many values, merging in
    either direction succeeds and gives the same signature. *)
Theorem Merge_comm (m o : Minhash) :
  seed m = seed o ->
  length (Signature m) = length (Signature o) ->
  exists m1 m2,
    Merge m o = Ok m1 /\ Merge o m = Ok m2 /\ Signature m1 = Signature m2.
Proof.
  intros Hseed Hlen.
  destruct (Merge_same_seed m o Hseed) as (m1 & Hm1 & _ & Hs1); [lia |].
  destruct (Merge_same_seed o m (eq_sym Hseed)) as (m2 & Hm2 & _ & Hs2);
    [lia |].
  exists m1, m2. split; [exact Hm1 |]. split; [exact Hm2 |].
  rewrite Hs1, Hs2. apply list_eq. intros i.
  rewrite !pointwise_min_lookup.
  destruct (Signature m !! i) as [x |] eqn:Hx,
           (Signature o !! i) as [v |] eqn:Hv.
  - rewrite Z.min_comm. reflexivity.
  - apply lookup_lt_Some in Hx. apply lookup_ge_None in Hv. lia.
  - apply lookup_lt_Some in Hv. apply lookup_ge_None in Hx. lia.
  - reflexivity.
Qed.

Lemma Merge_comm_witness :
  seed (PushAll example_sketch [elem_one])
  = seed (PushAll example_sketch [elem_two]) /\
  length (Signature (PushAll example_sketch [elem_one]))
  = length (Signature (PushAll example_sketch [elem_two])) /\
  exists m1 m2,
    Merge (PushAll example_sketch [elem_one])
          (PushAll example_sketch [elem_two]) = Ok m1 /\
    Merge (PushAll example_sketch [elem_two])
          (PushAll example_sketch [elem_one]) = Ok m2 /\
    Signature m1 = Signature m2.
Proof.
  assert (Hlen : length (Signature (PushAll example_sketch [elem_one]))
                 = length (Signature (PushAll example_sketch [elem_two])))
    by (rewrite !length_Signature_PushAll; reflexivity).
  split; [reflexivity |]. split; [exact Hlen |].
  exact (Merge_comm (PushAll example_sketch [elem_one])
           (PushAll example_sketch [elem_two]) eq_refl Hlen).
Defined.

(** ** Comparing sketches *)

Lemma MinWise_Similarity_equal_positions (m m2 : MinWise) :
  length (minimums m) = length (minimums m2) ->
  MinWise_Similarity m m2
  = Ok (PrimFloat.div
          (float64 (Z.of_nat (equal_positions (minimums m) (minimums m2))))
          (float64 (Z.of_nat (length (minimums m))))).
Proof.
  intros Hlen. unfold MinWise_Similarity.
  rewrite decide_False by (intros Hne; apply Hne; exact Hlen). reflexivity.
Qed.

Lemma MinWise_Similarity_sym (m m2 : MinWise) :
  MinWise_Similarity m m2 = MinWise_Similarity m2 m.
Proof.
  destruct (decide (length (minimums m) = length (minimums m2)))
    as [Hlen | Hne].
  - rewrite !MinWise_Similarity_equal_positions by congruence.
    rewrite (equal_positions_sym _ _ Hlen), Hlen. reflexivity.
  - unfold MinWise_Similarity. rewrite !decide_True by congruence.
    reflexivity.
Qed.

(** X17: [Jaccard] is symmetric in every respect: swapping the two sketches
    gives the same similarity, the same error or the same panic. *)
Theorem Jaccard_sym (m o : Minhash) : Jaccard m o = Jaccard o m.
Proof.
  unfold Jaccard.
  destruct (decide (seed m <> seed o)) as [Hne | Heq].
  - rewrite decide_True by congruence. reflexivity.
  - rewrite decide_False by (intros Hne; apply Heq; congruence).
    apply MinWise_Similarity_sym.
Qed.

(** X18: [Jaccard] on sketches with equal seeds.  With equally many values
    it returns the count [SigMatches] gives for the two signatures, divided
    by the number of values, as [float64]; with different numbers of values
    it does not return an error but panics. *)
Theorem Jaccard_same_seed (m o : Minhash) :
  seed m = seed o ->
  (length (Signature m) = length (Signature o) ->
   exists count,
     SigMatches (Signature m) (Signature o) = Ok count /\
     Jaccard m o
     = Ok (PrimFloat.div (float64 count)
             (float64 (Z.of_nat (length (Signature m)))))) /\
  (length (Signature m) <> length (Signature o) ->
   Jaccard m o = Panic "minhash minimums size mismatch").
Proof.
  intros Hseed. unfold Jaccard.
  rewrite decide_False by (intros Hne; apply Hne; exact Hseed).
  split.
  - intros Hlen. eexists.
    split; [apply SigMatches_equal_length; exact Hlen |].
    apply MinWise_Similarity_equal_positions. exact Hlen.
  - intros Hne. unfold MinWise_Similarity.
    rewrite decide_True by exact Hne. reflexivity.
Qed.

Lemma Jaccard_same_seed_witness :
  seed (PushAll example_sketch [elem_one])
  = seed (PushAll example_wide_sketch [elem_two]) /\
  (length (Signature (PushAll example_sketch [elem_one]))
   = length (Signature (PushAll example_wide_sketch [elem_two])) ->
   exists count,
     SigMatches (Signature (PushAll example_sketch [elem_one]))
                (Signature (PushAll example_wide_sketch [elem_two]))
     = Ok count /\
     Jaccard (PushAll example_sketch [elem_one])
             (PushAll example_wide_sketch [elem_two])
     = Ok (PrimFloat.div (float64 count)
             (float64 (Z.of_nat (length (Signature
                                  (PushAll example_sketch [elem_one]))))))) /\
  (length (Signature (PushAll example_sketch [elem_one]))
   <> length (Signature (PushAll example_wide_sketch [elem_two])) ->
   Jaccard (PushAll example_sketch [elem_one])
           (PushAll example_wide_sketch [elem_two])
   = Panic "minhash minimums size mismatch").
Proof.
  split; [reflexivity |].
  exact (Jaccard_same_seed (PushAll example_sketch [elem_one])
           (PushAll example_wide_sketch [elem_two]) eq_refl).
Defined.

(** Half of the values agree: the similarity is the float 0.5. *)
Example Jaccard_half :
  Jaccard
    {| mw := {| minimums := [1; 2; 3; 4]%Z;
                h1 := h1 (mw example_sketch); h2 := h2 (mw example_sketch) |};
       seed := 42 |}
    {| mw := {| minimums := [1; 0; 3; 0]%Z;
                h1 := h1 (mw example_sketch); h2 := h2 (mw example_sketch) |};
       seed := 42 |}
  = Ok 0.5%float.
Proof. vm_compute. reflexivity. Qed.

(** ** The callers: pairs of ids *)

Lemma to_N_inj (x y : byte) : Byte.to_N x = Byte.to_N y -> x = y.
Proof.
  intros Heq. pose proof (Byte.of_to_N x) as Hx.
  rewrite Heq, Byte.of_to_N in Hx. congruence.
Qed.

Lemma string_le_total (a : list byte) :
  forall b, string_le a b = false -> string_le b a = true.
Proof.
  induction a as [| x a IH]; intros [| y b] Hab; cbn [string_le] in *;
    try reflexivity; try discriminate Hab.
  destruct (N.ltb_spec (Byte.to_N x) (Byte.to_N y)); [discriminate Hab |].
  destruct (N.ltb_spec (Byte.to_N y) (Byte.to_N x)); [reflexivity |].
  apply IH. exact Hab.
Qed.

Lemma string_le_antisym (a : list byte) :
  forall b, string_le a b = true -> string_le b a = true -> a = b.
Proof.
  induction a as [| x a IH]; intros [| y b] Hab Hba; cbn [string_le] in *;
    try reflexivity; try discriminate Hab; try discriminate Hba.
  destruct (N.ltb_spec (Byte.to_N x) (Byte.to_N y)) as [Hxy | Hxy];
    destruct (N.ltb_spec (Byte.to_N y) (Byte.to_N x)) as [Hyx | Hyx];
    try discriminate Hab; try discriminate Hba; try lia.
  f_equal; [apply to_N_inj; lia | apply IH; assumption].
Qed.

(** [string_le] is the byte-wise lexicographic order. *)
Lemma string_le_bytewise (a : list byte) :
  forall b, string_le a b = true <-> bytewise_le a b.
Proof.
  induction a as [| x a IH]; intros b.
  - split; [intros _; left; exists b; reflexivity | reflexivity].
  - destruct b as [| y b]; cbn [string_le].
    + split; [discriminate |].
      intros [[t Ht] | (p & x' & y' & ta & tb & _ & Hb & _)].
      * discriminate Ht.
      * destruct p; discriminate Hb.
    + destruct (N.ltb_spec (Byte.to_N x) (Byte.to_N y)) as [Hxy | Hxy].
      { split; [intros _ | reflexivity].
        right. exists [], x, y, a, b. auto. }
      destruct (N.ltb_spec (Byte.to_N y) (Byte.to_N x)) as [Hyx | Hyx].
      { split; [discriminate |].
        intros [[t Ht] | (p & x' & y' & ta & tb & Ha & Hb & Hlt)].
        - injection Ht as -> _. lia.
        - destruct p as [| c p].
          + injection Ha as -> _. injection Hb as -> _. lia.
          + injection Ha as -> _. injection Hb as -> _. lia. }
      assert (Heq : x = y) by (apply to_N_inj; lia). subst y.
      rewrite IH. split.
      * intros [[t ->] | (p & x' & y' & ta & tb & -> & -> & Hlt)].
        -- left. exists t. reflexivity.
        -- right. exists (x :: p), x', y', ta, tb. auto.
      * intros [[t Ht] | (p & x' & y' & ta & tb & Ha & Hb & Hlt)].
        -- injection Ht as ->. left. exists t. reflexivity.
        -- destruct p as [| c p].
           ++ injection Ha as -> _. injection Hb as -> _. lia.
           ++ injection Ha as _ ->. injection Hb as _ ->.
              right. exists p, x', y', ta, tb. auto.
Qed.

(** X19: the text of a pair does not depend on the order of its two ids,
    and the id that is smaller in byte-wise lexicographic order always
    comes first: the text is that id, a comma and a space, and the other
    id. *)
Theorem String_sym (a b : list byte) :
  main.String {| main.ID1 := a; main.ID2 := b |}
  = main.String {| main.ID1 := b; main.ID2 := a |} /\
  exists lo hi,
    (lo = a /\ hi = b \/ lo = b /\ hi = a) /\
    bytewise_le lo hi /\
    main.String {| main.ID1 := a; main.ID2 := b |}
    = lo ++ String.list_byte_of_string ", " ++ hi.
Proof.
  unfold main.String. cbn [main.ID1 main.ID2].
  destruct (string_le a b) eqn:Hab.
  - split.
    + destruct (string_le b a) eqn:Hba; [| reflexivity].
      rewrite (string_le_antisym a b Hab Hba). reflexivity.
    + exists a, b. split; [left; auto |].
      split; [apply string_le_bytewise; exact Hab | reflexivity].
  - pose proof (string_le_total a b Hab) as Hba. rewrite Hba.
    split; [reflexivity |].
    exists b, a. split; [right; auto |].
    split; [apply string_le_bytewise; exact Hba | reflexivity].
Qed.

Example String_example :
  main.String {| main.ID1 := String.list_byte_of_string "set9";
                 main.ID2 := String.list_byte_of_string "set10" |}
  = String.list_byte_of_string "set10, set9".
Proof. reflexivity. Qed.

(** ** The callers: signatures of sets *)

Section CreateSignatures.
Context `{Source}.

(** What is sent for the set [s], given the fresh sketch [m]. *)
Lemma createSigantures_map (sd n : Z) (m : Minhash) (sets : list main.set) :
  NewMinhash sd n = Ok m ->
  main.createSigantures sd n sets
  = Ok (map (fun s =>
               {| main.sigID := main.ID s;
                  main.size := length (main.values s);
                  main.signature := Signature (PushAll m (main.values s)) |})
            sets).
Proof.
  intros Hnew. induction sets as [| s sets IH]; [reflexivity |].
  cbn [main.createSigantures map]. rewrite Hnew, IH. reflexivity.
Qed.

Lemma createSigantures_Ok_inv (sd n : Z) (sets : list main.set)
    (out : list main.setSig) :
  main.createSigantures sd n sets = Ok out ->
  sets <> [] ->
  exists m, NewMinhash sd n = Ok m.
Proof.
  intros Hout Hne. destruct sets as [| s sets]; [congruence |].
  cbn [main.createSigantures] in Hout.
  destruct (NewMinhash sd n) as [m | e | msg]; [| discriminate Hout ..].
  exists m. reflexivity.
Qed.

(** X20: for a non-negative [minhashSize], [createSigantures] sends exactly
    one signature per set received, in the same order, each with the id of
    its set, the number of its values, and [minhashSize] hash values. *)
Theorem createSigantures_each (sd n : Z) (sets : list main.set) :
  (0 <= n)%Z ->
  exists out,
    main.createSigantures sd n sets = Ok out /\
    length out = length sets /\
    forall i s, sets !! i = Some s ->
      exists r, out !! i = Some r /\
                main.sigID r = main.ID s /\
                main.size r = length (main.values s) /\
                length (main.signature r) = Z.to_nat n.
Proof.
  intros Hn. destruct (NewMinhash_Ok sd n Hn) as (m & Hm & _ & Hsig).
  eexists. split; [apply (createSigantures_map sd n m); exact Hm |].
  split; [apply length_map |].
  intros i s Hs. eexists. split.
  - rewrite list_lookup_fmap, Hs. reflexivity.
  - cbn [main.sigID main.size main.signature].
    split; [reflexivity |]. split; [reflexivity |].
    rewrite length_Signature_PushAll, Hsig, length_replicate. reflexivity.
Qed.

(** X21: two sets with the same elements, whatever their order and
    repetitions, are given the same signature. *)
Theorem createSigantures_same_elements (sd n : Z) (sets : list main.set)
    (out : list main.setSig) (i j : nat) (s s' : main.set) :
  main.createSigantures sd n sets = Ok out ->
  sets !! i = Some s -> sets !! j = Some s' ->
  (forall v, v ∈ main.values s <-> v ∈ main.values s') ->
  exists r r',
    out !! i = Some r /\ out !! j = Some r' /\
    main.signature r = main.signature r'.
Proof.
  intros Hout Hi Hj Hsame.
  destruct (createSigantures_Ok_inv sd n sets out Hout) as [m Hm].
  { intros ->. discriminate Hi. }
  rewrite (createSigantures_map sd n m sets Hm) in Hout.
  injection Hout as <-.
  eexists. eexists.
  split; [rewrite list_lookup_fmap, Hi; reflexivity |].
  split; [rewrite list_lookup_fmap, Hj; reflexivity |].
  cbn [main.signature]. apply list_eq. intros p.
  rewrite !Signature_PushAll_lookup.
  destruct (Signature m !! p) as [x |]; [| reflexivity].
  cbn [fmap option_fmap option_map]. f_equal. apply Z.le_antisymm;
    apply least_hash_subseteq; intros b; apply Hsame.
Qed.

End CreateSignatures.

Lemma createSigantures_each_witness :
  (0 <= 4)%Z /\
  exists out,
    main.createSigantures 42 4 example_sets = Ok out /\
    length out = length example_sets /\
    forall i s, example_sets !! i = Some s ->
      exists r, out !! i = Some r /\
                main.sigID r = main.ID s /\
                main.size r = length (main.values s) /\
                length (main.signature r) = Z.to_nat 4.
Proof.
  assert (Hn : (0 <= 4)%Z) by lia.
  split; [exact Hn |].
  exact (createSigantures_each 42 4 example_sets Hn).
Defined.

Lemma createSigantures_same_elements_witness :
  exists out s s',
    main.createSigantures 42 4 example_sets = Ok out /\
    example_sets !! 0 = Some s /\ example_sets !! 1 = Some s' /\
    (forall v, v ∈ main.values s <-> v ∈ main.values s') /\
    exists r r',
      out !! 0 = Some r /\ out !! 1 = Some r' /\
      main.signature r = main.signature r'.
Proof.
  eexists. eexists. eexists.
  split; [reflexivity |]. split; [reflexivity |]. split; [reflexivity |].
  assert (Hsame : forall v, v ∈ [elem_one; elem_two; elem_one]
                            <-> v ∈ [elem_two; elem_one]).
  { intros v. rewrite !list_elem_of_In. simpl. tauto. }
  split; [exact Hsame |].
  eapply (createSigantures_same_elements 42 4 example_sets _ 0 1);
    [reflexivity | reflexivity | reflexivity | exact Hsame].
Defined.

(** ** The set-file parser *)

Lemma HasPrefix_true (prefix : list byte) :
  forall s, gostrings.HasPrefix s prefix = true <-> exists t, s = prefix ++ t.
Proof.
  induction prefix as [| p prefix IH]; intros [| c s];
    cbn [gostrings.HasPrefix].
  - split; [intros _; exists []; reflexivity | reflexivity].
  - split; [intros _; exists (c :: s); reflexivity | reflexivity].
  - split; [discriminate | intros [t Ht]; discriminate Ht].
  - destruct (Byte.eqb c p) eqn:Hcp.
    + apply Byte.byte_dec_bl in Hcp. subst c. rewrite IH. split.
      * intros [t ->]. exists t. reflexivity.
      * intros [t Ht]. injection Ht as ->. exists t. reflexivity.
    + split; [discriminate |]. intros [t Ht]. injection Ht as -> _.
      rewrite Byte.byte_dec_lb in Hcp by reflexivity. discriminate Hcp.
Qed.

(** A successful [Index] locates an occurrence of the separator. *)
Lemma Index_Some (sep : list byte) :
  forall s m,
    gostrings.Index s sep = Some m ->
    s = take m s ++ sep ++ drop (m + length sep) s.
Proof.
  induction s as [| c s IH]; intros m Hm; cbn [gostrings.Index] in Hm.
  - destruct (gostrings.HasPrefix [] sep) eqn:Hp; [| discriminate Hm].
    injection Hm as <-. apply HasPrefix_true in Hp as [t Ht].
    symmetry in Ht. apply app_eq_nil in Ht as [-> ->]. reflexivity.
  - destruct (gostrings.HasPrefix (c :: s) sep) eqn:Hp.
    + injection Hm as <-. apply HasPrefix_true in Hp as [t Ht].
      rewrite Ht, take_0. cbn [Nat.add app]. rewrite drop_app_length.
      reflexivity.
    + destruct (gostrings.Index s sep) as [m' |] eqn:Hm'; [| discriminate Hm].
      injection Hm as <-. cbn [take drop Nat.add]. rewrite <- app_comm_cons.
      f_equal. apply IH. reflexivity.
Qed.

(** A failed [Index] means the separator occurs nowhere. *)
Lemma Index_None (sep : list byte) :
  forall s,
    gostrings.Index s sep = None ->
    forall pre suf, s <> pre ++ sep ++ suf.
Proof.
  induction s as [| c s IH]; intros Hnone pre suf Heq;
    cbn [gostrings.Index] in Hnone.
  - destruct (gostrings.HasPrefix [] sep) eqn:Hp; [discriminate Hnone |].
    symmetry in Heq. apply app_eq_nil in Heq as [-> Heq].
    apply app_eq_nil in Heq as [-> ->]. discriminate Hp.
  - destruct (gostrings.HasPrefix (c :: s) sep) eqn:Hp; [discriminate Hnone |].
    destruct (gostrings.Index s sep) eqn:Hi; [discriminate Hnone |].
    destruct pre as [| c' pre].
    + assert (Htrue : gostrings.HasPrefix (c :: s) sep = true)
        by (apply HasPrefix_true; exists suf; exact Heq).
      congruence.
    + injection Heq as -> Heq. exact (IH eq_refl pre suf Heq).
Qed.

Lemma genSplit_nonempty (n : nat) (s sep : list byte) :
  gostrings.genSplit n s sep <> [].
Proof.
  destruct n as [| n]; cbn [gostrings.genSplit]; [discriminate |].
  destruct (gostrings.Index s sep); discriminate.
Qed.

Lemma Join_cons (x : list byte) (rest : list (list byte)) (sep : list byte) :
  rest <> [] ->
  gostrings.Join (x :: rest) sep = x ++ sep ++ gostrings.Join rest sep.
Proof. destruct rest; [congruence | reflexivity]. Qed.

(** Joining what was split gives the string back. *)
Lemma Join_genSplit (sep : list byte) (n : nat) :
  forall s, gostrings.Join (gostrings.genSplit n s sep) sep = s.
Proof.
  induction n as [| n IH]; intros s; cbn [gostrings.genSplit];
    [reflexivity |].
  destruct (gostrings.Index s sep) as [m |] eqn:Hm; [| reflexivity].
  rewrite Join_cons by apply genSplit_nonempty.
  rewrite IH. symmetry. apply Index_Some. exact Hm.
Qed.

Lemma Join_snoc (init : list (list byte)) (x sep : list byte) :
  init <> [] ->
  gostrings.Join (init ++ [x]) sep = gostrings.Join init sep ++ sep ++ x.
Proof.
  induction init as [| y init IH]; intros Hne; [congruence |].
  destruct init as [| z init]; [reflexivity |].
  change ((y :: z :: init) ++ [x]) with (y :: (z :: init) ++ [x]).
  rewrite Join_cons by (cbn [app]; congruence).
  rewrite IH by congruence.
  rewrite (Join_cons y (z :: init)) by congruence.
  rewrite <- !app_assoc. reflexivity.
Qed.

Lemma Index_underscores_nil : gostrings.Index [] underscores = None.
Proof. reflexivity. Qed.

(** [Split] yields a single item exactly when the separator does not
    occur. *)
Lemma Split_single (str : list byte) :
  length (gostrings.Split str underscores) < 2 <->
  gostrings.Index str underscores = None.
Proof.
  unfold gostrings.Split. destruct str as [| c str].
  - split; [reflexivity | simpl; lia].
  - cbn [length gostrings.genSplit].
    destruct (gostrings.Index (c :: str) underscores) as [m |].
    + split; [| discriminate]. cbn [length].
      pose proof (genSplit_nonempty (length str)
                    (drop (m + length underscores) (c :: str)) underscores).
      destruct (gostrings.genSplit _ _ _); [congruence |]. simpl. lia.
    + split; [reflexivity | simpl; lia].
Qed.

Lemma last_item_split (items : list (list byte)) (x : list byte) :
  items !! (length items - 1) = Some x ->
  items = take (length items - 1) items ++ [x].
Proof.
  intros Hx. pose proof (lookup_lt_Some _ _ _ Hx) as Hlt.
  rewrite <- (take_drop_middle items (length items - 1) x Hx) at 1.
  replace (S (length items - 1)) with (length items) by lia.
  rewrite drop_all. reflexivity.
Qed.

(** The two ways [Parse] computes the value agree: it is the join of all
    items but the last. *)
Lemma Parse_value (items : list (list byte)) :
  2 <= length items ->
  (if decide (2 < length items)
   then Some (gostrings.Join (take (length items - 1) items) underscores)
   else items !! 0)
  = Some (gostrings.Join (take (length items - 1) items) underscores).
Proof.
  intros Hlen. destruct (decide (2 < length items)) as [_ | Hle];
    [reflexivity |].
  destruct items as [| a [| b [| c items]]]; simpl in *; try lia.
  reflexivity.
Qed.

(** What [Parse] does once the separator was found. *)
Lemma Parse_found (str : list byte) :
  2 <= length (gostrings.Split str underscores) ->
  exists v text,
    str = v ++ underscores ++ text /\
    gostrings.Split str underscores
    = take (length (gostrings.Split str underscores) - 1)
        (gostrings.Split str underscores) ++ [text] /\
    v = gostrings.Join
          (take (length (gostrings.Split str underscores) - 1)
             (gostrings.Split str underscores)) underscores /\
    Parse str
    = match strconv.Atoi text with
      | Ok n => Ok {| value := v; count := n |}
      | Err _ => Panic "strconv.Atoi failed"
      | Panic msg => Panic msg
      end.
Proof.
  intros Hlen. unfold Parse. cbv zeta.
  set (items := gostrings.Split str underscores) in *.
  rewrite decide_False by lia. rewrite Parse_value by exact Hlen.
  destruct (items !! (length items - 1)) as [text |] eqn:Htext.
  2: { apply lookup_ge_None in Htext. lia. }
  exists (gostrings.Join (take (length items - 1) items) underscores), text.
  pose proof (last_item_split items text Htext) as Hitems.
  split; [| split; [exact Hitems | split; reflexivity]].
  rewrite <- Join_snoc.
  - rewrite <- Hitems. symmetry. apply Join_genSplit.
  - intros Hnil. apply (f_equal length) in Hnil.
    rewrite length_take in Hnil. simpl in Hnil. lia.
Qed.

(** X22: [Parse] returns an error exactly when the four-underscore
    separator occurs nowhere in the string. *)
Theorem Parse_error_iff (str : list byte) :
  is_Err (Parse str) <->
  (forall pre suf, str <> pre ++ underscores ++ suf).
Proof.
  split.
  - intros [e He]. apply Index_None. apply Split_single.
    destruct (decide (length (gostrings.Split str underscores) < 2))
      as [Hlt | Hge]; [exact Hlt |].
    destruct (Parse_found str) as (v & text & _ & _ & _ & Hp); [lia |].
    rewrite Hp in He. destruct (strconv.Atoi text); discriminate He.
  - intros Hno.
    assert (Hnone : gostrings.Index str underscores = None).
    { destruct (gostrings.Index str underscores) as [m |] eqn:Hm;
        [| reflexivity].
      exfalso. exact (Hno _ _ (Index_Some _ _ _ Hm)). }
    apply Split_single in Hnone. unfold Parse. cbv zeta.
    rewrite decide_True by exact Hnone. eexists. reflexivity.
Qed.

(** X23: when [Parse] succeeds, the string was the value, the separator and
    the text of the count, in this order, and the count is what [Atoi] makes
    of that text. *)
Theorem Parse_Ok_inv (str : list byte) (p : valueCountPair) :
  Parse str = Ok p ->
  exists text,
    str = value p ++ underscores ++ text /\
    strconv.Atoi text = Ok (count p).
Proof.
  intros Hp.
  destruct (decide (length (gostrings.Split str underscores) < 2))
    as [Hlt | Hge].
  - unfold Parse in Hp. cbv zeta in Hp.
    rewrite decide_True in Hp by exact Hlt. discriminate Hp.
  - destruct (Parse_found str) as (v & text & Hstr & _ & _ & Hparse); [lia |].
    rewrite Hparse in Hp.
    destruct (strconv.Atoi text) as [n | e | msg] eqn:Hn;
      try discriminate Hp.
    injection Hp as <-. exists text. split; [exact Hstr | exact Hn].
Qed.

Lemma Parse_Ok_inv_witness :
  exists p,
    Parse (String.list_byte_of_string "a____b____12") = Ok p /\
    exists text,
      String.list_byte_of_string "a____b____12"
      = value p ++ underscores ++ text /\
      strconv.Atoi text = Ok (count p).
Proof.
  eexists. split; [reflexivity |].
  apply Parse_Ok_inv. reflexivity.
Defined.

(** A value may itself contain the separator: the last one counts. *)
Example Parse_nested :
  Parse (String.list_byte_of_string "a____b____12")
  = Ok {| value := String.list_byte_of_string "a____b"; count := 12 |}.
Proof. reflexivity. Qed.

(** But a value that ends in an underscore is cut one byte early, and the
    count, now starting with an underscore, makes [Parse] panic. *)
Example Parse_trailing_underscore :
  Parse (String.list_byte_of_string "a_____5")
  = Panic "strconv.Atoi failed".
Proof. reflexivity. Qed.

Lemma eqb_underscore_false (c : byte) :
  c <> Byte.x5f -> Byte.eqb c Byte.x5f = false.
Proof.
  intros Hne. destruct (Byte.eqb c Byte.x5f) eqn:Hc; [| reflexivity].
  apply Byte.byte_dec_bl in Hc. contradiction.
Qed.

Lemma Index_unfold (s sep : list byte) :
  gostrings.Index s sep
  = if gostrings.HasPrefix s sep then Some 0
    else match s with
         | [] => None
         | _ :: s' => S <$> gostrings.Index s' sep
         end.
Proof. destruct s; reflexivity. Qed.

Lemma Index_after_value (v t : list byte) :
  Byte.x5f ∉ v ->
  gostrings.Index (v ++ underscores ++ t) underscores = Some (length v).
Proof.
  induction v as [| c v IH]; intros Hv.
  - cbn [app length]. rewrite Index_unfold.
    assert (Hp : gostrings.HasPrefix (underscores ++ t) underscores = true)
      by (apply HasPrefix_true; exists t; reflexivity).
    rewrite Hp. reflexivity.
  - apply not_elem_of_cons in Hv as [Hc Hv].
    cbn [app length]. rewrite Index_unfold.
    assert (Hp : gostrings.HasPrefix (c :: v ++ underscores ++ t) underscores
                 = false).
    { unfold underscores at 2. cbn [gostrings.HasPrefix].
      rewrite eqb_underscore_false by congruence. reflexivity. }
    rewrite Hp, IH by exact Hv. reflexivity.
Qed.

Lemma Index_no_underscore (t : list byte) :
  Byte.x5f ∉ t -> gostrings.Index t underscores = None.
Proof.
  induction t as [| c t IH]; intros Ht; [reflexivity |].
  apply not_elem_of_cons in Ht as [Hc Ht].
  rewrite Index_unfold.
  assert (Hp : gostrings.HasPrefix (c :: t) underscores = false).
  { unfold underscores. cbn [gostrings.HasPrefix].
    rewrite eqb_underscore_false by congruence. reflexivity. }
  rewrite Hp, IH by exact Ht. reflexivity.
Qed.

Lemma digits_value_no_underscore (s : list byte) :
  forall acc n, strconv.digits_value acc s = Some n -> Byte.x5f ∉ s.
Proof.
  induction s as [| c s IH]; intros acc n Hn; [apply not_elem_of_nil |].
  cbn [strconv.digits_value] in Hn.
  destruct (strconv.digit_of c) as [d |] eqn:Hd; [| discriminate Hn].
  apply not_elem_of_cons. split; [| exact (IH _ _ Hn)].
  intros <-. vm_compute in Hd. discriminate Hd.
Qed.

Lemma Atoi_Ok_no_underscore (text : list byte) (n : Z) :
  strconv.Atoi text = Ok n -> Byte.x5f ∉ text.
Proof.
  unfold strconv.Atoi. destruct text as [| c t]; [discriminate |].
  destruct (Byte.eqb c Byte.x2d) eqn:Hm;
    [| destruct (Byte.eqb c Byte.x2b) eqn:Hpl].
  - apply Byte.byte_dec_bl in Hm. subst c.
    destruct t as [| c' t']; [discriminate |].
    destruct (strconv.digits_value 0 (c' :: t')) eqn:Hd; [| discriminate].
    intros _. apply not_elem_of_cons. split; [discriminate |].
    exact (digits_value_no_underscore _ _ _ Hd).
  - apply Byte.byte_dec_bl in Hpl. subst c.
    destruct t as [| c' t']; [discriminate |].
    destruct (strconv.digits_value 0 (c' :: t')) eqn:Hd; [| discriminate].
    intros _. apply not_elem_of_cons. split; [discriminate |].
    exact (digits_value_no_underscore _ _ _ Hd).
  - destruct (strconv.digits_value 0 (c :: t)) eqn:Hd; [| discriminate].
    intros _. exact (digits_value_no_underscore _ _ _ Hd).
Qed.

(** X24: the round trip of the set-file format.  For a value without
    underscores and a text that [Atoi] accepts, [Parse] of the value, the
    separator and the text gives back the value and the count. *)
Theorem Parse_round_trip (v text : list byte) (n : Z) :
  Byte.x5f ∉ v ->
  strconv.Atoi text = Ok n ->
  Parse (v ++ underscores ++ text) = Ok {| value := v; count := n |}.
Proof.
  intros Hv Hn.
  pose proof (Atoi_Ok_no_underscore text n Hn) as Htext.
  assert (Hsplit : gostrings.Split (v ++ underscores ++ text) underscores
                   = [v; text]).
  { unfold gostrings.Split. rewrite !length_app.
    change (length underscores) with 4.
    replace (length v + (4 + length text))
      with (S (length v + 3 + length text)) by lia.
    cbn [gostrings.genSplit]. rewrite Index_after_value by exact Hv.
    rewrite take_app_length.
    change (length underscores) with 4.
    replace (length v + 4) with (length (v ++ underscores))
      by (rewrite length_app; reflexivity).
    rewrite app_assoc, drop_app_length. f_equal.
    destruct (length v + 3 + length text); cbn [gostrings.genSplit];
      [reflexivity |].
    rewrite Index_no_underscore by exact Htext. reflexivity. }
  unfold Parse. cbv zeta. rewrite Hsplit. cbn [length].
  rewrite decide_False by lia. rewrite decide_False by lia.
  cbn [lookup list_lookup Nat.sub]. rewrite Hn. reflexivity.
Qed.

Lemma Parse_round_trip_witness :
  (Byte.x5f ∉ String.list_byte_of_string "hello") /\
  strconv.Atoi (String.list_byte_of_string "12") = Ok 12%Z /\
  Parse (String.list_byte_of_string "hello" ++ underscores
         ++ String.list_byte_of_string "12")
  = Ok {| value := String.list_byte_of_string "hello"; count := 12 |}.
Proof.
  assert (Hv : Byte.x5f ∉ String.list_byte_of_string "hello").
  { rewrite list_elem_of_In. simpl. intuition discriminate. }
  split; [exact Hv |]. split; [reflexivity |].
  exact (Parse_round_trip (String.list_byte_of_string "hello")
           (String.list_byte_of_string "12") 12%Z Hv eq_refl).
Defined.
